(** * gptravel: the itinerary-ordering core

    A shallow embedding of [gptravel.core.services.geocoder.GeoCoder] and
    [gptravel.core.services.engine.tsp_solver.TSPSolver], and the properties
    of the route optimiser stated over it.

    Python floats are IEEE binary64 numbers: the kernel's primitive [float].
    The module-level dict [LOCATION_CACHE] is a [gmap]; numpy arrays live in a
    store and are named by reference, so that [np.copy] and the in-place
    column assignment keep their meaning.  The geocoding provider (Photon),
    the geodesic function (geopy) and the two [python_tsp] solvers are
    libraries outside the repository: the model takes them as parameters and
    records every call to them in a trace.  [logger.debug] calls are not
    modelled.

    The second half covers the rest of [geocoder.py], two functions of
    [utils.py] and the ChatGPT engine of [openai_engine.py]. *)

From Stdlib Require Import PrimFloat ZArith Ascii String.
From stdpp Require Import gmap strings list.

Open Scope float_scope.

(** ** Values *)

(** What the code reads of a [geopy.Location]. *)
Record Location := { latitude : float; longitude : float }.

(** The dict [{"lat": ..., "lon": ...}] of [location_coordinates]. *)
Record Coords := { lat : option float; lon : option float }.

(** A coordinate pair as handed to the geodesic function. *)
Abbreviation point := (option float * option float)%type.

(** A two-dimensional [np.ndarray] of floats, row by row. *)
Abbreviation ndarray := (list (list float)).

Inductive exn := TypeError | ValueError | IndexError | KeyError.

Inductive result (A : Type) :=
| Returns (a : A)
| Raises (e : exn).
Arguments Returns {A} a.
Arguments Raises {A} e.

(** The branch taken at lines 27-32 of [tsp_solver.py]. *)
Inductive solver_name := DynamicProgramming | SimulatedAnnealing.

(** ** Effects *)

Inductive event :=
| CacheContains (key : string)                 (* loc_name in LOCATION_CACHE *)
| CacheGet (key : string)                      (* LOCATION_CACHE[loc_name] *)
| CacheSet (key : string) (v : option Location) (* LOCATION_CACHE[loc_name] = qry_obj *)
| Geocode (name : string)                      (* self._geocoder(location_name) *)
| Geodesic (a b : point)                       (* GRC(a, b).km *)
| Solve (s : solver_name) (dist_mat : ndarray). (* solver(distance_matrix=dist_mat) *)

(** The process: the coordinate cache, the store of arrays (a reference is
    a position in it) and the trace of effects, latest first. *)
Record World := {
  LOCATION_CACHE : gmap string (option Location);
  arrays : list ndarray;
  trace : list event
}.

Definition process_start : World :=
  {| LOCATION_CACHE := ∅; arrays := []; trace := [] |}.

(** A computation changes the world and returns or raises; what it did
    before raising stays done. *)
Definition M (A : Type) : Type := World → result A * World.

#[global] Instance M_ret : MRet M := λ A a w, (Returns a, w).
#[global] Instance M_bind : MBind M := λ A B f m w,
  match m w with
  | (Returns a, w') => f a w'
  | (Raises e, w') => (Raises e, w')
  end.

Definition raise {A} (e : exn) : M A := λ w, (Raises e, w).

Definition emit (e : event) : M unit := λ w,
  (Returns (), {| LOCATION_CACHE := LOCATION_CACHE w; arrays := arrays w;
                  trace := e :: trace w |}).

(** *** The dictionary *)

Definition cache_contains (key : string) : M bool := λ w,
  (emit (CacheContains key);;
   mret (bool_decide (is_Some (LOCATION_CACHE w !! key)))) w.

Definition cache_getitem (key : string) : M (option Location) := λ w,
  (emit (CacheGet key);;
   match LOCATION_CACHE w !! key with
   | Some v => mret v
   | None => raise KeyError
   end) w.

Definition cache_setitem (key : string) (v : option Location) : M unit := λ w,
  (Returns (), {| LOCATION_CACHE := <[key := v]> (LOCATION_CACHE w);
                  arrays := arrays w;
                  trace := CacheSet key v :: trace w |}).

(** *** Arrays *)

Definition np_array (rows : ndarray) : M nat := λ w,
  (Returns (length (arrays w)),
   {| LOCATION_CACHE := LOCATION_CACHE w; arrays := arrays w ++ [rows];
      trace := trace w |}).

Definition deref (w : World) (r : nat) : ndarray := default [] (arrays w !! r).

Definition np_copy (r : nat) : M nat := λ w, np_array (deref w r) w.

(** [a[:, col] = v]; every row of the arrays built here has the column. *)
Definition set_column (col : nat) (v : float) (a : ndarray) : ndarray :=
  (λ row, <[col := v]> row) <$> a.

Definition np_set_column (r : nat) (col : nat) (v : float) : M unit := λ w,
  (Returns (),
   {| LOCATION_CACHE := LOCATION_CACHE w;
      arrays := <[r := set_column col v (deref w r)]> (arrays w);
      trace := trace w |}).

(** *** Lists *)

(** [l[i]] for a Python int [i]: negative indices count from the end. *)
Definition getitem {A} (l : list A) (i : Z) : option A :=
  if (0 <=? i)%Z then l !! Z.to_nat i
  else if (- Z.of_nat (length l) <=? i)%Z then l !! Z.to_nat (Z.of_nat (length l) + i)
  else None.

Definition getitem_M {A} (l : list A) (i : Z) : M A :=
  match getitem l i with
  | Some x => mret x
  | None => raise IndexError
  end.

(** ** The program *)

(** [self._distance_matrix] holds a reference to an array. *)
Record TSPSolver := { _distance_matrix : nat }.

(** The libraries the two modules call. *)
Class Libraries := {
  (** [str.lower]. *)
  lower : string → string;
  (** [Photon().geocode] with its language fixed, as [GeoCoder.__init__]
      binds it; what it answers may depend on what happened before.  It
      answers with a location or with [None]; a network fault is not
      modelled. *)
  Photon_geocode : list event → string → option Location;
  (** [geopy.distance.geodesic(a, b).km]. *)
  GRC : point → point → result float;
  (** [python_tsp]; the heuristic is randomised, so its answer may differ
      from one call to the next. *)
  solve_tsp_dynamic_programming : ndarray → list Z * float;
  solve_tsp_simulated_annealing : list event → ndarray → list Z * float
}.

Section gptravel.

Context `{Libraries}.

(** *** geocoder.py *)

Definition _geocoder (location_name : string) : M (option Location) := λ w,
  (emit (Geocode location_name);;
   mret (Photon_geocode (trace w) location_name)) w.

Definition geodesic_km (a b : point) : M float := λ w,
  match emit (Geodesic a b) w with
  | (_, w') => (GRC a b, w')
  end.

Definition _query (location_name : string) : M (option Location) :=
  let loc_name := lower location_name in
  hit ← cache_contains loc_name;
  if hit : bool then cache_getitem loc_name
  else
    qry_obj ← _geocoder location_name;
    cache_setitem loc_name qry_obj;;
    mret qry_obj.

(** A [Location] is truthy (its [__len__] is 3); [None] is falsy. *)
Definition location_coordinates (location_name : string) : M Coords :=
  fetched_location ← _query location_name;
  match fetched_location with
  | Some l => mret {| lat := Some (latitude l); lon := Some (longitude l) |}
  | None => mret {| lat := None; lon := None |}
  end.

Definition location_distance (location_name_1 location_name_2 : string) : M float :=
  if bool_decide (lower location_name_1 = lower location_name_2) then mret 0
  else
    location1_coords ← location_coordinates location_name_1;
    location2_coords ← location_coordinates location_name_2;
    geodesic_km (lat location1_coords, lon location1_coords)
                (lat location2_coords, lon location2_coords).

(** *** tsp_solver.py *)

(** [np.empty([2, 2])]: four floats of whatever the memory held. *)
Definition TSPSolver_init (junk : float * float * float * float) : M TSPSolver :=
  let '(a, b, c, d) := junk in
  r ← np_array [[a; b]; [c; d]];
  mret {| _distance_matrix := r |}.

Definition distance_matrix (self : TSPSolver) (w : World) : ndarray :=
  deref w (_distance_matrix self).

(** The nested comprehension of lines 34-42. *)
Definition distance_rows (cities : list string) : M ndarray :=
  mapM (λ i,
    mapM (λ j,
      if bool_decide (i = j) then mret 0
      else
        ci ← getitem_M cities (Z.of_nat i);
        cj ← getitem_M cities (Z.of_nat j);
        location_distance ci cj)
      (seq 0 (length cities)))
    (seq 0 (length cities)).

Definition choose_solver (cities : list string) : solver_name :=
  if bool_decide (length cities < 10)%nat then DynamicProgramming
  else SimulatedAnnealing.

Definition run_solver (s : solver_name) (history : list event) (a : ndarray)
    : list Z * float :=
  match s with
  | DynamicProgramming => solve_tsp_dynamic_programming a
  | SimulatedAnnealing => solve_tsp_simulated_annealing history a
  end.

Definition solver (s : solver_name) (dist_mat : nat) : M (list Z * float) := λ w,
  let a := deref w dist_mat in
  (emit (Solve s a);; mret (run_solver s (trace w) a)) w.

(** Lines 44-48, once [self._distance_matrix] refers to the new array. *)
Definition optimise (self : TSPSolver) (cities : list string) (open_problem : bool)
    (s : solver_name) : M (list string * float) :=
  dist_mat ← np_copy (_distance_matrix self);
  (if open_problem then np_set_column dist_mat 0 0 else mret ());;
  sol ← solver s dist_mat;
  route ← mapM (getitem_M cities) sol.1;
  mret (route, sol.2).

(** [TSPSolver.solve]: the result, the object and the world afterwards. *)
Definition solve (self : TSPSolver) (cities : list string) (open_problem : bool)
    (w : World) : result (list string * float) * TSPSolver * World :=
  if bool_decide (1 < length cities)%nat then
    let s := choose_solver cities in
    match (rows ← distance_rows cities; np_array rows) w with
    | (Raises e, w1) => (Raises e, self, w1)
    | (Returns r, w1) =>
        let self1 := {| _distance_matrix := r |} in
        match optimise self1 cities open_problem s w1 with
        | (res, w2) => (res, self1, w2)
        end
    end
  else (Returns (cities, 0), self, w).

End gptravel.

(** ** Sample collaborators

    Concrete stand-ins for the libraries, used to run the model. *)

Definition ascii_lower (c : ascii) : ascii :=
  let n := nat_of_ascii c in
  if (65 <=? n)%nat && (n <=? 90)%nat then ascii_of_nat (n + 32) else c.

Fixpoint str_lower (s : string) : string :=
  match s with
  | EmptyString => EmptyString
  | String c s' => String (ascii_lower c) (str_lower s')
  end.

Definition rome : Location := {| latitude := 41.875; longitude := 12.5 |}.
Definition florence : Location := {| latitude := 43.75; longitude := 11.25 |}.
Definition venice : Location := {| latitude := 45.4375; longitude := 12.3125 |}.

(** A provider that knows three cities, whatever happened before. *)
Definition sample_geocode (history : list event) (name : string) : option Location :=
  let n := str_lower name in
  if String.eqb n "rome" then Some rome
  else if String.eqb n "florence" then Some florence
  else if String.eqb n "venice" then Some venice
  else None.

Definition is_at (l : Location) (p : point) : bool :=
  match p with
  | (Some la, Some lo) => PrimFloat.eqb la (latitude l) && PrimFloat.eqb lo (longitude l)
  | _ => false
  end.

Definition ends_are (l1 l2 : Location) (a b : point) : bool :=
  (is_at l1 a && is_at l2 b) || (is_at l2 a && is_at l1 b).

Definition resolved (p : point) : bool :=
  match p with (Some _, Some _) => true | _ => false end.

(** A distance table for the three cities (kilometres), faulting on an
    absent coordinate. *)
Definition sample_GRC (a b : point) : result float :=
  if resolved a && resolved b then
    Returns (if ends_are rome florence a b then 231.5
             else if ends_are florence venice a b then 204.0
             else if ends_are rome venice a b then 394.25
             else 0)
  else Raises TypeError.

(** The closed tour length of [perm] in [m]: consecutive legs, then the leg
    from the last stop back to the first. *)
Definition entry (m : ndarray) (i j : Z) : float :=
  default 0 (getitem m i ≫= λ row, getitem row j).

Fixpoint legs (m : ndarray) (first : Z) (perm : list Z) : float :=
  match perm with
  | [] => 0
  | [i] => entry m i first
  | i :: (j :: _) as rest => entry m i j + legs m first rest
  end.

Definition tour_length (m : ndarray) (perm : list Z) : float :=
  match perm with
  | [] => 0
  | first :: _ => legs m first perm
  end.

Definition better (m : ndarray) (p q : list Z) : list Z :=
  if PrimFloat.ltb (tour_length m q) (tour_length m p) then q else p.

(** An exact solver by enumeration: the cheapest closed tour from stop 0,
    with its length in the matrix it is given. *)
Definition sample_exact (m : ndarray) : list Z * float :=
  let stops := Z.of_nat <$> seq 1 (length m - 1) in
  let tours := (λ p, 0%Z :: p) <$> permutations stops in
  let best := foldr (λ p acc, better m acc p) (0%Z :: stops) tours in
  (best, tour_length m best).

(** A heuristic that keeps the stops in input order. *)
Definition sample_heuristic (history : list event) (m : ndarray) : list Z * float :=
  let tour := Z.of_nat <$> seq 0 (length m) in
  (tour, tour_length m tour).

Definition sample : Libraries := {|
  lower := str_lower;
  Photon_geocode := sample_geocode;
  GRC := sample_GRC;
  solve_tsp_dynamic_programming := sample_exact;
  solve_tsp_simulated_annealing := sample_heuristic
|}.

Definition sample_query := @_query sample.
Definition sample_coordinates := @location_coordinates sample.
Definition sample_distance := @location_distance sample.
Definition sample_rows := @distance_rows sample.
Definition sample_solve := @solve sample.

(** A solver object made at the start of the process. *)
Definition new_solver : TSPSolver := {| _distance_matrix := 0 |}.
Definition new_world : World :=
  {| LOCATION_CACHE := ∅; arrays := [[[0; 0]; [0; 0]]]; trace := [] |}.

Definition three_cities : list string := ["Rome"; "Florence"; "Venice"].
Definition three_cities_matrix : ndarray :=
  [[0; 231.5; 394.25]; [231.5; 0; 204]; [394.25; 204; 0]].
Definition ten_cities : list string :=
  ["Rome"; "Florence"; "Venice"; "rome"; "florence"; "venice";
   "ROME"; "FLORENCE"; "VENICE"; "Rome"].

Definition nine_cities : list string := take 9 ten_cities.

Definition nine_cities_matrix : ndarray :=
  Eval vm_compute in
    match (sample_rows nine_cities new_world).1 with
    | Returns rows => rows
    | Raises _ => []
    end.

Definition ten_cities_matrix : ndarray :=
  Eval vm_compute in
    match (sample_rows ten_cities new_world).1 with
    | Returns rows => rows
    | Raises _ => []
    end.

(** ** Reading a trace *)

(** The names sent to the provider, latest first. *)
Definition geocoded (t : list event) : list string :=
  omap (λ e, match e with Geocode name => Some name | _ => None end) t.

(** The solver calls, latest first. *)
Definition solver_calls (t : list event) : list (solver_name * ndarray) :=
  omap (λ e, match e with Solve s a => Some (s, a) | _ => None end) t.

(** What happened between an earlier world and a later one. *)
Definition since (w w' : World) : list event :=
  take (length (trace w') - length (trace w)) (trace w').

Definition absent : Coords := {| lat := None; lon := None |}.

Definition as_point (c : Coords) : point := (lat c, lon c).

(** Modelled from the spec: what [geopy.distance.geodesic] does with a point
    whose coordinates are [None] is geopy's code, which the repository does
    not hold; the spec (sections 4.1 and 9) says that it raises a runtime
    fault. *)
Definition faults_on_absent (geodesic : point → point → result float) : Prop :=
  ∀ a b, a = (None, None) ∨ b = (None, None) → ∃ e, geodesic a b = Raises e.

(** ** The matrix as a function of the cache

    What [location_distance] returns once the cache holds both names. *)

#[global] Instance result_ret : MRet result := λ A a, Returns a.
#[global] Instance result_bind : MBind result := λ A B f r,
  match r with
  | Returns a => f a
  | Raises e => Raises e
  end.

Definition getitem_r {A} (l : list A) (i : Z) : result A :=
  match getitem l i with
  | Some x => Returns x
  | None => Raises IndexError
  end.

Definition cached_point `{Libraries}
    (C : gmap string (option Location)) (name : string) : point :=
  match C !! lower name with
  | Some (Some l) => (Some (latitude l), Some (longitude l))
  | _ => (None, None)
  end.

Definition cached_distance `{Libraries}
    (C : gmap string (option Location)) (n1 n2 : string) : result float :=
  if bool_decide (lower n1 = lower n2) then Returns 0
  else GRC (cached_point C n1) (cached_point C n2).

Definition cached_rows `{Libraries}
    (C : gmap string (option Location)) (cities : list string) : result ndarray :=
  mapM (λ i,
    mapM (λ j,
      if bool_decide (i = j) then Returns 0
      else
        ci ← getitem_r cities (Z.of_nat i);
        cj ← getitem_r cities (Z.of_nat j);
        cached_distance C ci cj)
      (seq 0 (length cities)))
    (seq 0 (length cities)).

(** A step that only looks places up: the cache grows, the arrays stay, and
    no solver runs. *)
Definition lookup_only (w w' : World) : Prop :=
  LOCATION_CACHE w ⊆ LOCATION_CACHE w'
  ∧ arrays w' = arrays w
  ∧ trace w' = since w w' ++ trace w
  ∧ solver_calls (since w w') = [].

(** [m] looks places up and returns what [spec] computes from any cache
    that extends the one it leaves. *)
Definition agrees {A} (m : M A) (spec : gmap string (option Location) → result A) : Prop :=
  ∀ w, lookup_only w (m w).2
       ∧ ∀ C, LOCATION_CACHE (m w).2 ⊆ C → (m w).1 = spec C.

(** The entry in row [i], column [j]. *)
Definition at_ (m : ndarray) (i j : nat) : option float :=
  m !! i ≫= λ row, row !! j.

(** Line 48 for a solver's answer [sol]: the cities at the solver's indices
    with the solver's distance, or the fault of the first index out of
    range. *)
Definition route_of (cities : list string) (sol : list Z * float)
    : result (list string * float) :=
  match mapM (getitem cities) sol.1 with
  | Some route => Returns (route, sol.2)
  | None => Raises IndexError
  end.

(** * The rest of the code *)

(** ** utils.py *)

(** [[elem for i, elem in enumerate(input_list)
      if i == 0 or input_list[i - 1] != elem]]; [or] does not look at
    [input_list[i - 1]] when [i] is 0. *)
Definition remove_consecutive_duplicates {A} `{EqDecision A}
    (input_list : list A) : list A :=
  omap (λ '(i, elem),
          if bool_decide (i = 0%nat)
             || negb (bool_decide (getitem input_list (Z.of_nat i - 1) = Some elem))
          then Some elem else None)
       (imap pair input_list).

(** The same list read from left to right, remembering the element before. *)
Fixpoint after_element {A} `{EqDecision A} (before : option A) (l : list A) : list A :=
  match l with
  | [] => []
  | x :: l' =>
      if bool_decide (before = Some x) then after_element (Some x) l'
      else x :: after_element (Some x) l'
  end.

(** No two neighbours of [l] are equal. *)
Definition no_equal_neighbours {A} (l : list A) : Prop :=
  ∀ i x y, l !! i = Some x → l !! S i = Some y → x ≠ y.

(** ** Python values

    What [json.loads] gives, and the [raw] answer of a provider: dicts with
    string keys (in insertion order), lists, strings, numbers, booleans and
    [None]. *)
#[local] Unset Elimination Schemes.
Inductive json :=
| JNone
| JBool (b : bool)
| JInt (n : Z)
| JFloat (x : float)
| JStr (s : string)
| JList (l : list json)
| JDict (d : list (string * json)).
#[local] Set Elimination Schemes.

(** [d[key]] for a dict with string keys: the first entry under [key]. *)
Fixpoint dict_get (key : string) (d : list (string * json)) : option json :=
  match d with
  | [] => None
  | (k, v) :: d' => if String.eqb k key then Some v else dict_get key d'
  end.

(** [v[key]] for a string [key]: only a dict can be asked. *)
Definition item (v : json) (key : string) : result json :=
  match v with
  | JDict d =>
      match dict_get key d with
      | Some x => Returns x
      | None => Raises KeyError
      end
  | _ => Raises TypeError
  end.

(** [v[i]] for an int [i]. *)
Definition index (v : json) (i : Z) : result json :=
  match v with
  | JList l =>
      match getitem l i with
      | Some x => Returns x
      | None => Raises IndexError
      end
  | JStr s =>
      match getitem (list_ascii_of_string s) i with
      | Some c => Returns (JStr (String c EmptyString))
      | None => Raises IndexError
      end
  | JDict _ => Raises KeyError
  | _ => Raises TypeError
  end.

(** [bool(v)], as [if v:] reads it. *)
Definition truthy (v : json) : bool :=
  match v with
  | JNone => false
  | JBool b => b
  | JInt n => negb (n =? 0)%Z
  | JFloat x => negb (PrimFloat.eqb x 0)
  | JStr s => negb (String.eqb s "")
  | JList l => negb (bool_decide (length l = 0%nat))
  | JDict d => negb (bool_decide (length d = 0%nat))
  end.

(** [v in names] for a list of strings: only an equal string is in it. *)
Definition among (v : json) (names : list string) : bool :=
  match v with
  | JStr s => existsb (String.eqb s) names
  | _ => false
  end.

(** ** geocoder.py, the other methods *)

(** The [raw] attribute of a [geopy.Location].  The model holds a location
    by its coordinates, so [raw] is read off them: two locations the
    provider gives at the same coordinates carry the same [raw]. *)
Class Photon_raw := { raw : Location → json }.

Section geocoder_types.

Context `{Libraries} `{Photon_raw}.

Definition lift {A} (r : result A) : M A := λ w, (r, w).

Definition _location_type (location_name : string) : M json :=
  fetched_location ← _query location_name;
  match fetched_location with
  | Some l =>
      properties ← lift (item (raw l) "properties");
      lift (item properties "type")
  | None => mret JNone
  end.

Definition country_from_location_name (location_name : string) : M json :=
  fetched_location ← _query location_name;
  match fetched_location with
  | Some l =>
      properties ← lift (item (raw l) "properties");
      lift (item properties "country")
  | None => mret JNone
  end.

Definition is_location_country_city_state (location_name : string) : M bool :=
  location_type ← _location_type location_name;
  if truthy location_type then mret (among location_type ["country"; "state"; "city"])
  else mret false.

Definition is_a_country (location_name : string) : M bool :=
  location_type ← _location_type location_name;
  if truthy location_type then mret (among location_type ["country"; "state"])
  else mret false.

(** What the type and the country of a looked-up location are. *)
Definition type_of (v : option Location) : result json :=
  match v with
  | Some l => item (raw l) "properties" ≫= λ properties, item properties "type"
  | None => Returns JNone
  end.

Definition country_of (v : option Location) : result json :=
  match v with
  | Some l => item (raw l) "properties" ≫= λ properties, item properties "country"
  | None => Returns JNone
  end.

Definition answer (names : list string) (t : result json) : result bool :=
  match t with
  | Returns v => Returns (truthy v && among v names)
  | Raises e => Raises e
  end.

End geocoder_types.

(** A [raw] for the sample provider: Rome is a city without a country
    entry, Florence a state of Italy, Venice comes without a type. *)
Definition sample_raw (l : Location) : json :=
  if PrimFloat.eqb (latitude l) (latitude rome) then
    JDict [("properties", JDict [("type", JStr "city")])]
  else if PrimFloat.eqb (latitude l) (latitude florence) then
    JDict [("properties", JDict [("type", JStr "state"); ("country", JStr "Italy")])]
  else JDict [("properties", JDict [("country", JStr "Italy")])].

Definition sample_photon_raw : Photon_raw := {| raw := sample_raw |}.

(** ** Counting provider calls *)

(** [m] sends a name to the provider only if it is one of [names] and the
    cache does not hold it, puts it in the cache, and never sends two names
    with the same lower-cased form; the cache only grows. *)
Definition thrifty `{Libraries} {A} (names : list string) (m : M A) : Prop :=
  ∀ w,
    trace (m w).2 = since w (m w).2 ++ trace w
    ∧ LOCATION_CACHE w ⊆ LOCATION_CACHE (m w).2
    ∧ NoDup (lower <$> geocoded (since w (m w).2))
    ∧ ∀ x, x ∈ geocoded (since w (m w).2) →
        x ∈ names
        ∧ LOCATION_CACHE w !! lower x = None
        ∧ is_Some (LOCATION_CACHE (m w).2 !! lower x).

(** ** Faults beyond the built-in lookups *)

Inductive exception :=
| AssertionError
| ZeroDivisionError
| JSONDecodeError
| OpenAIError                  (* whatever the OpenAI client raises *)
| LookupError (e : exn).       (* KeyError, IndexError, TypeError *)

Inductive outcome (A : Type) :=
| Value (a : A)
| Exception (e : exception).
Arguments Value {A} a.
Arguments Exception {A} e.

Definition of_result {A} (r : result A) : outcome A :=
  match r with
  | Returns a => Value a
  | Raises e => Exception (LookupError e)
  end.

(** ** utils.py: weighted_average, for lists of floats *)

(** [sum(l)]: from 0, left to right. *)
Definition py_sum (l : list float) : float := foldl PrimFloat.add 0 l.

(** [a / b]. *)
Definition true_div (a b : float) : outcome float :=
  if PrimFloat.eqb b 0 then Exception ZeroDivisionError else Value (a / b).

Definition weighted_average (values weights : list float) : outcome float :=
  if bool_decide (length values = length weights) then
    match mapM (λ i, v ← getitem values (Z.of_nat i);
                     w ← getitem weights (Z.of_nat i);
                     Some (v * w))
               (seq 0 (length values)) with
    | Some products => true_div (py_sum products) (py_sum weights)
    | None => Exception (LookupError IndexError)
    end
  else Exception AssertionError.

(** ** openai_engine.py *)

(** What the engine reads of a [Prompt]. *)
Record Prompt := {
  prompt : string;
  departure_place : string;
  destination_place : string;
  n_travel_days : Z;
  json_keys : json
}.

(** The keyword arguments of [openai.ChatCompletion.create]. *)
Record ChatRequest := {
  model : string;
  messages : list (string * string);   (* role, content *)
  temperature : float;
  max_tokens : Z;
  top_p : float;
  presence_penalty : float;
  frequency_penalty : float;
  n : Z
}.

(** The arguments [TravelPlanJSON] is made from. *)
Record TravelPlanJSON := {
  plan_departure_place : string;
  plan_destination_place : string;
  n_days : Z;
  travel_plan_json : json;
  json_keys_depth_map : json
}.

(** A [ChatGPTravelEngine]: the attributes of [OpenAITravelEngine] and
    [_n]. *)
Record ChatGPTravelEngine := {
  _model : string;
  _temperature : float;
  _max_tokens : Z;
  _top_p : float;
  _frequency_penalty : float;
  _presence_penalty : float;
  _finish_reason : json;
  _total_tokens : json;
  _n : Z
}.

(** What the engine calls: the OpenAI client, which sees the requests made
    before; [self._regex], which [TravelEngine] provides; [json.loads], with
    [None] for [JSONDecodeError]. *)
Class OpenAI := {
  ChatCompletion_create : list ChatRequest → ChatRequest → outcome json;
  _regex : string → list string;
  json_loads : string → option json
}.

(** [s.replace] of every single quote (character 39) by a double quote
    (character 34). *)
Definition single_quote : ascii := ascii_of_nat 39.
Definition double_quote : ascii := ascii_of_nat 34.

Fixpoint replace_quotes (s : string) : string :=
  match s with
  | EmptyString => EmptyString
  | String c s' =>
      String (if Ascii.eqb c single_quote then double_quote else c)
             (replace_quotes s')
  end.

(** [(p >= 0.0) & (p <= 2.0)]. *)
Definition penalty_ok (p : float) : bool := PrimFloat.leb 0 p && PrimFloat.leb p 2.

(** [ChatGPTravelEngine.__init__], with [OpenAITravelEngine.__init__]
    inside it. *)
Definition ChatGPTravelEngine_init (temperature top_p frequency_penalty
    presence_penalty : float) (number_chat_completions max_tokens : Z)
    : outcome ChatGPTravelEngine :=
  if negb (penalty_ok presence_penalty) then Exception AssertionError
  else if negb (penalty_ok frequency_penalty) then Exception AssertionError
  else
    Value {| _model := "gpt-3.5-turbo";
             _temperature := temperature;
             _max_tokens := Z.min max_tokens 4096;
             _top_p := top_p;
             _frequency_penalty := frequency_penalty;
             _presence_penalty := presence_penalty;
             _finish_reason := JNone;
             _total_tokens := JNone;
             _n := number_chat_completions |}.

Definition set_finish_reason (self : ChatGPTravelEngine) (v : json) : ChatGPTravelEngine :=
  {| _model := _model self; _temperature := _temperature self;
     _max_tokens := _max_tokens self; _top_p := _top_p self;
     _frequency_penalty := _frequency_penalty self;
     _presence_penalty := _presence_penalty self;
     _finish_reason := v; _total_tokens := _total_tokens self; _n := _n self |}.

Definition set_total_tokens (self : ChatGPTravelEngine) (v : json) : ChatGPTravelEngine :=
  {| _model := _model self; _temperature := _temperature self;
     _max_tokens := _max_tokens self; _top_p := _top_p self;
     _frequency_penalty := _frequency_penalty self;
     _presence_penalty := _presence_penalty self;
     _finish_reason := _finish_reason self; _total_tokens := v; _n := _n self |}.

Section openai_engine.

Context `{OpenAI}.

Definition chat_request (self : ChatGPTravelEngine) (p : Prompt) : ChatRequest :=
  {| model := _model self;
     messages := [("system", "You are an expert travel planner.");
                  ("user", prompt p)];
     temperature := _temperature self;
     max_tokens := _max_tokens self;
     top_p := _top_p self;
     presence_penalty := _presence_penalty self;
     frequency_penalty := _frequency_penalty self;
     n := _n self |}.

(** [ChatGPTravelEngine._openai_call]: the outcome, the engine and the
    requests made so far, latest first. *)
Definition _openai_call (self : ChatGPTravelEngine) (p : Prompt)
    (sent : list ChatRequest)
    : outcome json * ChatGPTravelEngine * list ChatRequest :=
  let request := chat_request self p in
  match ChatCompletion_create sent request with
  | Exception e => (Exception e, self, request :: sent)
  | Value api_output =>
      match item api_output "choices" ≫= λ choices,
            index choices 0 ≫= λ choice, item choice "finish_reason" with
      | Raises e => (Exception (LookupError e), self, request :: sent)
      | Returns reason =>
          let self1 := set_finish_reason self reason in
          match item api_output "usage" ≫= λ usage, item usage "total_tokens" with
          | Raises e => (Exception (LookupError e), self1, request :: sent)
          | Returns total =>
              (Value api_output, set_total_tokens self1 total, request :: sent)
          end
      end
  end.

(** Lines 40-51: the message of the first choice, the first JSON text in
    it, parsed as it is or else with its single quotes made double. *)
Definition parse_response (response : json) : outcome json :=
  match item response "choices" ≫= λ choices,
        index choices 0 ≫= λ choice,
        item choice "message" ≫= λ message, item message "content" with
  | Raises e => Exception (LookupError e)
  | Returns (JStr message_response) =>
      match getitem (_regex message_response) 0 with
      | None => Exception (LookupError IndexError)
      | Some first =>
          match json_loads first with
          | Some json_object => Value json_object
          | None =>
              match json_loads (replace_quotes first) with
              | Some json_object => Value json_object
              | None => Exception JSONDecodeError
              end
          end
      end
  | Returns _ => Exception (LookupError TypeError)
  end.

(** [OpenAITravelEngine.get_travel_plan_json] of a [ChatGPTravelEngine]. *)
Definition get_travel_plan_json (self : ChatGPTravelEngine) (p : Prompt)
    (sent : list ChatRequest)
    : outcome TravelPlanJSON * ChatGPTravelEngine * list ChatRequest :=
  match _openai_call self p sent with
  | (Exception e, self1, sent1) => (Exception e, self1, sent1)
  | (Value response, self1, sent1) =>
      match parse_response response with
      | Exception e => (Exception e, self1, sent1)
      | Value json_object =>
          (Value {| plan_departure_place := departure_place p;
                    plan_destination_place := destination_place p;
                    n_days := n_travel_days p;
                    travel_plan_json := json_object;
                    json_keys_depth_map := json_keys p |},
           self1, sent1)
      end
  end.

(** The engine asked for one plan after another; a fault does not stop the
    caller from asking again. *)
Fixpoint plans (self : ChatGPTravelEngine) (prompts : list Prompt)
    (sent : list ChatRequest) : ChatGPTravelEngine * list ChatRequest :=
  match prompts with
  | [] => (self, sent)
  | p :: rest =>
      match get_travel_plan_json self p sent with
      | (_, self1, sent1) => plans self1 rest sent1
      end
  end.

End openai_engine.

(** The settings of an engine: everything but the two attributes a call
    updates. *)
Definition settings (self : ChatGPTravelEngine)
    : string * float * Z * float * float * float * Z :=
  (_model self, _temperature self, _max_tokens self, _top_p self,
   _frequency_penalty self, _presence_penalty self, _n self).

(** The finish reason and the token count in a response. *)
Definition finish_reason_in (api_output : json) : result json :=
  item api_output "choices" ≫= λ choices,
  index choices 0 ≫= λ choice, item choice "finish_reason".

Definition total_tokens_in (api_output : json) : result json :=
  item api_output "usage" ≫= λ usage, item usage "total_tokens".

Definition content_in (response : json) : result json :=
  item response "choices" ≫= λ choices,
  index choices 0 ≫= λ choice,
  item choice "message" ≫= λ message, item message "content".

(** A sample client: it answers every request with the same
    single-quoted plan. *)
Definition sample_response : json :=
  JDict [("choices",
          JList [JDict [("finish_reason", JStr "stop");
                        ("message", JDict [("content", JStr "{'Day 1': {}}")])]]);
         ("usage", JDict [("total_tokens", JInt 42)])].

Definition sample_openai : OpenAI := {|
  ChatCompletion_create := λ _ _, Value sample_response;
  _regex := λ s, [s];
  json_loads := λ s,
    if String.eqb s (replace_quotes "{'Day 1': {}}")
    then Some (JDict [("Day 1", JDict [])]) else None
|}.

Definition sample_prompt : Prompt :=
  {| prompt := "Plan three days in Rome";
     departure_place := "Milan";
     destination_place := "Rome";
     n_travel_days := 3;
     json_keys := JDict [("day", JInt 0); ("city", JInt 1)] |}.

(** ** Running a step again *)

(** [m] only adds to the cache, and run once more from any world whose
    cache holds what the first run left, it gives the same outcome, asks the
    provider nothing and leaves the cache as it is. *)
Definition replays `{Libraries} {A} (m : M A) : Prop :=
  ∀ w,
    LOCATION_CACHE w ⊆ LOCATION_CACHE (m w).2
    ∧ ∀ v, LOCATION_CACHE (m w).2 ⊆ LOCATION_CACHE v →
        (m v).1 = (m w).1
        ∧ LOCATION_CACHE (m v).2 = LOCATION_CACHE v
        ∧ trace (m v).2 = since v (m v).2 ++ trace v
        ∧ geocoded (since v (m v).2) = [].

(** * Properties *)

Section properties.

Context `{Libraries}.

(** *** The coordinate cache *)

Lemma query_hit n v w :
  LOCATION_CACHE w !! lower n = Some v →
  _query n w =
    (Returns v,
     {| LOCATION_CACHE := LOCATION_CACHE w; arrays := arrays w;
        trace := CacheGet (lower n) :: CacheContains (lower n) :: trace w |}).
Proof.
  intros Hhit. unfold _query, cache_contains, cache_getitem, mbind, M_bind. simpl.
  rewrite Hhit. rewrite bool_decide_eq_true_2 by eauto. simpl. by rewrite Hhit.
Qed.

Lemma query_miss n w :
  LOCATION_CACHE w !! lower n = None →
  _query n w =
    let answer := Photon_geocode (CacheContains (lower n) :: trace w) n in
    (Returns answer,
     {| LOCATION_CACHE := <[lower n := answer]> (LOCATION_CACHE w);
        arrays := arrays w;
        trace := CacheSet (lower n) answer :: Geocode n
                 :: CacheContains (lower n) :: trace w |}).
Proof.
  intros Hmiss. unfold _query, cache_contains, mbind, M_bind. simpl.
  rewrite Hmiss. rewrite bool_decide_eq_false_2 by (intros [? ?]; done). done.
Qed.

Lemma query_post n w :
  ∃ v, (_query n w).1 = Returns v
     ∧ LOCATION_CACHE (_query n w).2 !! lower n = Some v
     ∧ LOCATION_CACHE w ⊆ LOCATION_CACHE (_query n w).2
     ∧ arrays (_query n w).2 = arrays w.
Proof.
  destruct (LOCATION_CACHE w !! lower n) as [v|] eqn:Hk.
  - rewrite (query_hit _ _ _ Hk). simpl. eauto.
  - rewrite (query_miss _ _ Hk). simpl. eexists. split_and!; try done.
    + apply lookup_insert_eq.
    + by apply insert_subseteq.
Qed.

Lemma since_app w w' new : trace w' = new ++ trace w → since w w' = new.
Proof.
  intros Ht. unfold since. rewrite Ht, length_app.
  replace (length new + length (trace w) - length (trace w))%nat with (length new) by lia.
  by rewrite take_app_length.
Qed.

Lemma geocoded_app t1 t2 : geocoded (t1 ++ t2) = geocoded t1 ++ geocoded t2.
Proof. apply omap_app. Qed.

(** One query sends at most one name to the provider, and only a name
    that the cache does not hold yet. *)
Lemma query_trace n w :
  trace (_query n w).2 = since w (_query n w).2 ++ trace w
  ∧ geocoded (since w (_query n w).2)
    = match LOCATION_CACHE w !! lower n with Some _ => [] | None => [n] end.
Proof.
  destruct (LOCATION_CACHE w !! lower n) as [v|] eqn:Hk.
  - rewrite (query_hit _ _ _ Hk). simpl.
    rewrite (since_app w _ [CacheGet (lower n); CacheContains (lower n)]); done.
  - rewrite (query_miss _ _ Hk). simpl.
    erewrite (since_app w _ [CacheSet (lower n) _; Geocode n; CacheContains (lower n)]); done.
Qed.

Lemma mapM_cons {A B} (f : A → M B) x l w :
  mapM f (x :: l) w =
    match f x w with
    | (Returns y, w1) =>
        match mapM f l w1 with
        | (Returns k, w2) => (Returns (y :: k), w2)
        | (Raises e, w2) => (Raises e, w2)
        end
    | (Raises e, w1) => (Raises e, w1)
    end.
Proof.
  simpl. unfold mbind, M_bind. destruct (f x w) as [[y|e] w1]; [|done].
  destruct (mapM f l w1) as [[k|e] w2]; done.
Qed.

Lemma mapM_query_world names w (v : option Location) :
  (match mapM _query names w with
   | (Returns k, w2) => (Returns (v :: k), w2)
   | (Raises e, w2) => (Raises e, w2)
   end).2 = (mapM _query names w).2.
Proof. destruct (mapM _query names w) as [[k|e] ?]; done. Qed.

(** Over any run of queries, no case-folded name goes to the provider
    twice, and none that the cache held at the start goes at all. *)
Lemma queries_trace names w :
  let w' := (mapM _query names w).2 in
  trace w' = since w w' ++ trace w
  ∧ LOCATION_CACHE w ⊆ LOCATION_CACHE w'
  ∧ NoDup (lower <$> geocoded (since w w'))
  ∧ ∀ m, m ∈ geocoded (since w w') → LOCATION_CACHE w !! lower m = None.
Proof.
  revert w. induction names as [|n names IH]; intros w; cbv zeta.
  - simpl. rewrite (since_app w w []) by done. split_and!; try done.
    + constructor.
    + intros m Hm. inversion Hm.
  - rewrite mapM_cons.
    destruct (query_post n w) as (v & Hr & Hv & Hsub & _).
    destruct (query_trace n w) as [Ht Hg].
    destruct (_query n w) as [r w1] eqn:Hq. simpl in Hr, Hv, Hsub, Ht, Hg. subst r.
    rewrite mapM_query_world.
    destruct (IH w1) as (Ht' & Hsub' & Hnd & Hnew).
    set (w2 := (mapM _query names w1).2) in *.
    assert (HT : trace w2 = (since w1 w2 ++ since w w1) ++ trace w).
    { rewrite Ht' at 1. rewrite Ht at 1. by rewrite app_assoc. }
    rewrite (since_app w w2 _ HT).
    split_and!.
    + done.
    + by etrans.
    + rewrite geocoded_app, fmap_app. apply NoDup_app. split_and!.
      * done.
      * intros k Hk1 Hk2. rewrite Hg in Hk2.
        destruct (LOCATION_CACHE w !! lower n) eqn:Hc; [by inversion Hk2|].
        apply list_elem_of_fmap in Hk1 as (m & -> & Hm).
        apply list_elem_of_fmap in Hk2 as (m' & Heq & Hm').
        apply list_elem_of_singleton in Hm'. subst m'.
        apply Hnew in Hm. rewrite Heq in Hm. congruence.
      * rewrite Hg. destruct (LOCATION_CACHE w !! lower n); simpl; repeat constructor.
        set_solver.
    + intros m. rewrite geocoded_app, elem_of_app. intros [Hm|Hm].
      * apply Hnew in Hm. by eapply lookup_weaken_None.
      * rewrite Hg in Hm. destruct (LOCATION_CACHE w !! lower n) eqn:Hc; [by inversion Hm|].
        apply list_elem_of_singleton in Hm. by subst m.
Qed.

Lemma filter_none {A} (P : A → Prop) `{∀ x, Decision (P x)} (l : list A) :
  Forall (λ x, ¬ P x) l → filter P l = [].
Proof.
  induction 1 as [|x l Hx _ IH]; [done|]. by rewrite filter_cons_False.
Qed.

Lemma coordinates_eq n w :
  location_coordinates n w =
    (Returns match (_query n w).1 with
             | Returns (Some l) => {| lat := Some (latitude l); lon := Some (longitude l) |}
             | _ => absent
             end,
     (_query n w).2).
Proof.
  unfold location_coordinates, mbind, M_bind.
  destruct (query_post n w) as (v & Hr & _).
  destruct (_query n w) as [r w1]. simpl in *. subst r. by destruct v.
Qed.

Lemma distance_eq n1 n2 w :
  lower n1 ≠ lower n2 →
  ∃ c1 c2 w1 w2,
    location_coordinates n1 w = (Returns c1, w1)
    ∧ location_coordinates n2 w1 = (Returns c2, w2)
    ∧ location_distance n1 n2 w =
        (GRC (as_point c1) (as_point c2),
         {| LOCATION_CACHE := LOCATION_CACHE w2; arrays := arrays w2;
            trace := Geodesic (as_point c1) (as_point c2) :: trace w2 |}).
Proof.
  intros Hne. do 2 eexists. exists (_query n1 w).2, (_query n2 (_query n1 w).2).2.
  split_and!; [apply coordinates_eq..|].
  unfold location_distance. rewrite bool_decide_eq_false_2 by done.
  unfold mbind, M_bind. rewrite (coordinates_eq n1 w).
  rewrite (coordinates_eq n2 (_query n1 w).2). reflexivity.
Qed.

(** C7: for two names that [lower] maps to the same string, the same name
    twice included, [location_distance] returns 0.0 and leaves the world as
    it was: no cache read or write and no provider call is recorded. *)
Theorem same_place_distance_zero n1 n2 w :
  lower n1 = lower n2 →
  location_distance n1 n2 w = (Returns 0, w) ∧ since w (location_distance n1 n2 w).2 = [].
Proof.
  intros Heq. unfold location_distance. rewrite bool_decide_eq_true_2 by done.
  split; [done|]. by apply since_app.
Qed.

(** C8: the first query for a name puts the provider's answer, found or
    not, in the cache under the lower-cased name; after any further
    queries, a query for any case variant returns that answer, leaves the
    cache as it is and sends nothing to the provider; over the whole run the
    provider saw that name once and no case-folded name twice. *)
Theorem query_asks_provider_once n n' between w :
  LOCATION_CACHE w !! lower n = None →
  lower n' = lower n →
  let answer := Photon_geocode (CacheContains (lower n) :: trace w) n in
  let w1 := (_query n w).2 in
  let w2 := (mapM _query between w1).2 in
  let w3 := (_query n' w2).2 in
  (_query n w).1 = Returns answer
  ∧ LOCATION_CACHE w1 = <[lower n := answer]> (LOCATION_CACHE w)
  ∧ geocoded (since w w1) = [n]
  ∧ (_query n' w2).1 = Returns answer
  ∧ LOCATION_CACHE w3 = LOCATION_CACHE w2
  ∧ geocoded (since w2 w3) = []
  ∧ filter (λ m, lower m = lower n) (geocoded (since w w3)) = [n]
  ∧ NoDup (lower <$> geocoded (since w w3)).
Proof.
  intros Hmiss Hfold. simpl.
  destruct (query_trace n w) as [Ht1 Hg1]. rewrite Hmiss in Hg1.
  destruct (queries_trace between (_query n w).2) as (Ht2 & Hsub2 & _ & Hnew2).
  simpl in *.
  set (w1 := (_query n w).2) in *. set (w2 := (mapM _query between w1).2) in *.
  assert (Hc1 : LOCATION_CACHE w1 = <[lower n := Photon_geocode (CacheContains (lower n) :: trace w) n]> (LOCATION_CACHE w)).
  { subst w1. by rewrite (query_miss _ _ Hmiss). }
  assert (Hk2 : LOCATION_CACHE w2 !! lower n' = Some (Photon_geocode (CacheContains (lower n) :: trace w) n)).
  { rewrite Hfold. eapply lookup_weaken; [|exact Hsub2]. rewrite Hc1. apply lookup_insert_eq. }
  destruct (query_trace n' w2) as [Ht3 Hg3]. rewrite Hk2 in Hg3.
  set (w3 := (_query n' w2).2) in *.
  assert (HT : trace w3 = (since w2 w3 ++ since w1 w2 ++ since w w1) ++ trace w).
  { rewrite Ht3 at 1. rewrite Ht2 at 1. rewrite Ht1 at 1. by rewrite !app_assoc. }
  assert (Hs : since w w3 = since w2 w3 ++ since w1 w2 ++ since w w1) by by apply since_app.
  split_and!.
  - subst w1. by rewrite (query_miss _ _ Hmiss).
  - done.
  - done.
  - subst w3. by rewrite (query_hit _ _ _ Hk2).
  - subst w3. by rewrite (query_hit _ _ _ Hk2).
  - done.
  - rewrite Hs, !geocoded_app, Hg3, Hg1, !filter_app. simpl.
    rewrite (filter_none _ (geocoded (since w1 w2))).
    + rewrite filter_cons_True by done. done.
    + apply Forall_forall. intros m Hm Hl. apply Hnew2 in Hm.
      rewrite Hl, Hc1, lookup_insert_eq in Hm. done.
  - rewrite Hs, !geocoded_app, Hg3, Hg1. simpl.
    rewrite fmap_app. apply NoDup_app. split_and!.
    + by destruct (queries_trace between w1) as (_ & _ & ? & _).
    + intros k Hin1 Hin2. apply list_elem_of_fmap in Hin1 as (m & -> & Hm).
      apply Hnew2 in Hm. simpl in Hin2. apply list_elem_of_singleton in Hin2.
      rewrite Hin2, Hc1, lookup_insert_eq in Hm. done.
    + simpl. repeat constructor. set_solver.
Qed.

(** C9: [location_coordinates] never raises, and answers with [lat] and
    [lon] both [None] when the provider finds no match; for two names with
    different lower-cased forms of which one is unresolved,
    [location_distance] hands the [None] coordinates to the geodesic function
    and its outcome is that function's outcome, unhandled: it raises whenever
    the geodesic function faults on absent coordinates. *)
Theorem unresolved_location_reaches_geodesic :
  (∀ n w, ∃ c, (location_coordinates n w).1 = Returns c
             ∧ ((_query n w).1 = Returns None → c = absent))
  ∧ (∀ n w, LOCATION_CACHE w !! lower n = None →
       Photon_geocode (CacheContains (lower n) :: trace w) n = None →
       (location_coordinates n w).1 = Returns absent)
  ∧ (∀ n1 n2 w,
       faults_on_absent GRC →
       lower n1 ≠ lower n2 →
       (_query n1 w).1 = Returns None
       ∨ (_query n2 (_query n1 w).2).1 = Returns None →
       ∃ c1 c2 e,
         (location_coordinates n1 w).1 = Returns c1
         ∧ (location_coordinates n2 (location_coordinates n1 w).2).1 = Returns c2
         ∧ (as_point c1 = (None, None) ∨ as_point c2 = (None, None))
         ∧ head (trace (location_distance n1 n2 w).2)
           = Some (Geodesic (as_point c1) (as_point c2))
         ∧ (location_distance n1 n2 w).1 = GRC (as_point c1) (as_point c2)
         ∧ (location_distance n1 n2 w).1 = Raises e).
Proof.
  split_and!.
  - intros n w. rewrite coordinates_eq. cbn [fst]. eexists. split; [done|].
    by intros ->.
  - intros n w Hmiss Hnone. rewrite coordinates_eq. cbn [fst].
    rewrite (query_miss _ _ Hmiss). cbv zeta. cbn [fst]. by rewrite Hnone.
  - intros n1 n2 w Hfault Hne Hun.
    destruct (distance_eq n1 n2 w Hne) as (c1 & c2 & w1 & w2 & H1 & H2 & Hd).
    rewrite Hd, H1. simpl. rewrite H2. simpl.
    rewrite coordinates_eq in H1. injection H1 as Hc1 Hw1.
    rewrite coordinates_eq in H2. injection H2 as Hc2 Hw2.
    assert (Hp : as_point c1 = (None, None) ∨ as_point c2 = (None, None)).
    { destruct Hun as [Hq|Hq].
      - left. rewrite Hq in Hc1. by subst c1.
      - right. rewrite <- Hw1, Hq in Hc2. by subst c2. }
    destruct (Hfault _ _ Hp) as [e He].
    exists c1, c2, e. split_and!; done.
Qed.

(** *** Steps that only look places up *)

Lemma solver_calls_app t1 t2 : solver_calls (t1 ++ t2) = solver_calls t1 ++ solver_calls t2.
Proof. apply omap_app. Qed.

Lemma lookup_only_refl w : lookup_only w w.
Proof. unfold lookup_only. rewrite (since_app w w []) by done. done. Qed.

Lemma lookup_only_trans w1 w2 w3 :
  lookup_only w1 w2 → lookup_only w2 w3 → lookup_only w1 w3.
Proof.
  intros (Hc & Ha & Ht & Hs) (Hc' & Ha' & Ht' & Hs').
  assert (HT : trace w3 = (since w2 w3 ++ since w1 w2) ++ trace w1).
  { rewrite Ht' at 1. rewrite Ht at 1. by rewrite app_assoc. }
  unfold lookup_only. rewrite (since_app _ _ _ HT). split_and!.
  - by etrans.
  - congruence.
  - done.
  - by rewrite solver_calls_app, Hs, Hs'.
Qed.

Lemma agrees_pure {A} (r : result A) :
  agrees (λ w, (r, w)) (λ _, r).
Proof. intros w. simpl. split; [apply lookup_only_refl|done]. Qed.

Lemma bind_eq {A B} (m : M A) (f : A → M B) w :
  (m ≫= f) w =
    match m w with
    | (Returns a, w') => f a w'
    | (Raises e, w') => (Raises e, w')
    end.
Proof. reflexivity. Qed.

Lemma agrees_bind {A B} (m : M A) (f : A → M B) s g :
  agrees m s → (∀ a, agrees (f a) (g a)) →
  agrees (m ≫= f) (λ C, s C ≫= λ a, g a C).
Proof.
  intros Hm Hf w. rewrite bind_eq.
  destruct (Hm w) as [Hl Hr]. destruct (m w) as [[a|e] w1]; simpl in *.
  - destruct (Hf a w1) as [Hl' Hr']. split; [by eapply lookup_only_trans|].
    intros C HC. rewrite <- (Hr C).
    + by apply Hr'.
    + etrans; [|exact HC]. apply Hl'.
  - split; [done|]. intros C HC. by rewrite <- (Hr C).
Qed.

Lemma agrees_mapM {A B} (f : A → M B) g l :
  (∀ x, agrees (f x) (g x)) →
  agrees (mapM f l) (λ C, mapM (λ x, g x C) l).
Proof.
  intros Hf. induction l as [|x l IH].
  - apply (agrees_pure (Returns [])).
  - simpl. apply agrees_bind; [done|]. intros y.
    apply agrees_bind; [done|]. intros k. apply (agrees_pure (Returns (y :: k))).
Qed.

Lemma agrees_query n :
  agrees (location_coordinates n) (λ C, Returns
    {| lat := (cached_point C n).1; lon := (cached_point C n).2 |}).
Proof.
  intros w. rewrite coordinates_eq. simpl.
  destruct (query_post n w) as (v & Hr & Hv & Hsub & Harr).
  destruct (query_trace n w) as [Ht Hg]. split.
  - split_and!; try done.
    destruct (LOCATION_CACHE w !! lower n) as [v'|] eqn:Hk.
    + rewrite (query_hit _ _ _ Hk). simpl.
      by rewrite (since_app w _ [CacheGet (lower n); CacheContains (lower n)]).
    + rewrite (query_miss _ _ Hk). simpl.
      by erewrite (since_app w _ [CacheSet (lower n) _; Geocode n; CacheContains (lower n)]).
  - intros C HC. rewrite Hr. unfold cached_point.
    rewrite (lookup_weaken _ _ _ _ Hv HC). by destruct v.
Qed.

Lemma agrees_geodesic a b :
  agrees (geodesic_km a b) (λ _, GRC a b).
Proof.
  intros w. unfold geodesic_km. simpl. split; [|done].
  unfold lookup_only. simpl. rewrite (since_app w _ [Geodesic a b]) by done. done.
Qed.

Lemma agrees_distance n1 n2 :
  agrees (location_distance n1 n2) (λ C, cached_distance C n1 n2).
Proof.
  unfold location_distance, cached_distance. case_bool_decide.
  - apply (agrees_pure (Returns 0)).
  - pose proof (agrees_bind _ _ _ _ (agrees_query n1)
      (λ c1, agrees_bind _ _ _ _ (agrees_query n2)
         (λ c2, agrees_geodesic (lat c1, lon c1) (lat c2, lon c2)))) as Hd.
    intros w. destruct (Hd w) as [Hl Hr]. split; [done|].
    intros C HC. rewrite (Hr C HC). simpl.
    by destruct (cached_point C n1), (cached_point C n2).
Qed.

Lemma agrees_getitem {A} (l : list A) i :
  agrees (getitem_M l i) (λ _, getitem_r l i).
Proof.
  unfold getitem_M, getitem_r. destruct (getitem l i).
  - apply (agrees_pure (Returns a)).
  - apply (agrees_pure (Raises IndexError)).
Qed.

Lemma agrees_rows cities :
  agrees (distance_rows cities) (λ C, cached_rows C cities).
Proof.
  unfold distance_rows, cached_rows.
  apply (agrees_mapM _ (λ i C, mapM _ _)). intros i.
  apply (agrees_mapM _ (λ j C, if bool_decide (i = j) then _ else _)). intros j.
  case_bool_decide.
  - apply (agrees_pure (Returns 0)).
  - apply (agrees_bind _ _ (λ _, _) (λ ci C, _) (agrees_getitem cities _)). intros ci.
    apply (agrees_bind _ _ (λ _, _) (λ cj C, _) (agrees_getitem cities _)). intros cj.
    apply agrees_distance.
Qed.

(** *** The matrix computed from a cache *)

Lemma mapM_Returns {A B} (f : A → result B) l k :
  mapM f l = Returns k → Forall2 (λ x y, f x = Returns y) l k.
Proof.
  revert k. induction l as [|x l IH]; intros k; simpl.
  - intros [= <-]. constructor.
  - unfold mbind, result_bind. destruct (f x) as [y|e] eqn:Hx; [|done].
    destruct (mapM f l) as [k'|e]; [|done]. intros [= <-]. constructor; auto.
Qed.

Lemma mapM_seq_Returns {B} (f : nat → result B) n k :
  mapM f (seq 0 n) = Returns k →
  length k = n ∧ ∀ i y, k !! i = Some y → f i = Returns y.
Proof.
  intros Hk. apply mapM_Returns in Hk. split.
  - apply Forall2_length in Hk. by rewrite length_seq in Hk.
  - intros i y Hy.
    destruct (Forall2_lookup_r _ _ _ _ _ Hk Hy) as (x & Hx & Hf).
    apply lookup_seq in Hx as [-> _]. done.
Qed.

Lemma getitem_of_nat {A} (l : list A) (i : nat) : getitem l (Z.of_nat i) = l !! i.
Proof.
  unfold getitem. rewrite (proj2 (Z.leb_le 0 (Z.of_nat i))) by lia.
  by rewrite Nat2Z.id.
Qed.

Lemma cached_rows_entries C cities rows :
  cached_rows C cities = Returns rows →
  length rows = length cities
  ∧ ∀ i row, rows !! i = Some row →
      length row = length cities
      ∧ ∀ j v, row !! j = Some v →
          (i = j ∧ v = 0)
          ∨ (i ≠ j ∧ ∃ ci cj, cities !! i = Some ci ∧ cities !! j = Some cj
                              ∧ cached_distance C ci cj = Returns v).
Proof.
  intros Hrows. apply mapM_seq_Returns in Hrows as [Hlen Hrow].
  split; [done|]. intros i row Hi.
  apply Hrow, mapM_seq_Returns in Hi as [Hlen' Hcell].
  split; [done|]. intros j v Hj. apply Hcell in Hj.
  case_bool_decide as Hij.
  - left. by injection Hj as <-.
  - right. split; [done|]. unfold getitem_r in Hj. rewrite !getitem_of_nat in Hj.
    unfold mbind, result_bind in Hj.
    destruct (cities !! i) as [ci|]; [|done].
    destruct (cities !! j) as [cj|]; [|done]. eauto.
Qed.

Lemma cached_distance_sym C n1 n2 :
  (∀ a b, GRC a b = GRC b a) →
  cached_distance C n1 n2 = cached_distance C n2 n1.
Proof.
  intros Hsym. unfold cached_distance.
  repeat case_bool_decide; try done; congruence.
Qed.

Lemma cached_distance_nonneg C n1 n2 d :
  (∀ a b d, GRC a b = Returns d → PrimFloat.leb 0 d = true) →
  cached_distance C n1 n2 = Returns d → PrimFloat.leb 0 d = true.
Proof.
  intros Hpos. unfold cached_distance. case_bool_decide.
  - by intros [= <-].
  - apply Hpos.
Qed.

(** A matrix with the shape and the entries the rows comprehension gives. *)
Lemma cached_rows_matrix C cities rows :
  (∀ a b, GRC a b = GRC b a) →
  (∀ a b d, GRC a b = Returns d → PrimFloat.leb 0 d = true) →
  cached_rows C cities = Returns rows →
  length rows = length cities
  ∧ Forall (λ row, length row = length cities) rows
  ∧ (∀ i, (i < length cities)%nat → at_ rows i i = Some 0)
  ∧ (∀ i j, (i < length cities)%nat → (j < length cities)%nat →
       ∃ d, at_ rows i j = Some d ∧ at_ rows j i = Some d
            ∧ PrimFloat.leb 0 d = true).
Proof.
  intros Hsym Hpos Hrows.
  destruct (cached_rows_entries _ _ _ Hrows) as [Hlen Hrow].
  assert (Hcell : ∀ i j, (i < length cities)%nat → (j < length cities)%nat →
            ∃ row v, rows !! i = Some row ∧ row !! j = Some v).
  { intros i j Hi Hj.
    destruct (lookup_lt_is_Some_2 rows i) as [row Hr]; [lia|].
    destruct (Hrow _ _ Hr) as [Hl _].
    destruct (lookup_lt_is_Some_2 row j) as [v Hv]; [lia|]. eauto. }
  split_and!.
  - done.
  - apply Forall_forall. intros row Hin.
    apply list_elem_of_lookup in Hin as [i Hi]. by apply (Hrow _ _ Hi).
  - intros i Hi. destruct (Hcell i i Hi Hi) as (row & v & Hr & Hv).
    unfold at_. rewrite Hr. simpl. rewrite Hv.
    destruct (Hrow _ _ Hr) as [_ Hc]. destruct (Hc _ _ Hv) as [[_ ->]|[? _]]; done.
  - intros i j Hi Hj.
    destruct (Hcell i j Hi Hj) as (ri & v & Hri & Hv).
    destruct (Hcell j i Hj Hi) as (rj & v' & Hrj & Hv').
    unfold at_. rewrite Hri, Hrj. simpl. rewrite Hv, Hv'.
    destruct (Hrow _ _ Hri) as [_ Hci]. destruct (Hrow _ _ Hrj) as [_ Hcj].
    destruct (Hci _ _ Hv) as [[-> ->]|(Hne & ci & cj & Hi' & Hj' & Hd)].
    + destruct (Hcj _ _ Hv') as [[_ ->]|[? _]]; [|done]. by exists 0.
    + destruct (Hcj _ _ Hv') as [[? _]|(_ & cj' & ci' & Hj'' & Hi'' & Hd')]; [by subst|].
      assert (cj' = cj) as -> by congruence. assert (ci' = ci) as -> by congruence.
      rewrite (cached_distance_sym _ _ _ Hsym), Hd in Hd'. injection Hd' as <-.
      exists v. split_and!; try done. by eapply cached_distance_nonneg.
Qed.

(** *** One call of [solve] *)

Lemma mapM_getitem {A} (l : list A) idxs w :
  mapM (getitem_M l) idxs w =
    (match mapM (getitem l) idxs with
     | Some route => Returns route
     | None => Raises IndexError
     end, w).
Proof.
  revert w. induction idxs as [|i idxs IH]; intros w; [done|].
  rewrite mapM_cons. simpl. unfold getitem_M at 1.
  destruct (getitem l i) as [x|]; simpl; [|done].
  rewrite IH. by destruct (mapM (getitem l) idxs).
Qed.

Lemma deref_new w a b n :
  arrays w = a ++ b → (n < length b)%nat → deref w (length a + n) = default [] (b !! n).
Proof.
  intros Ha Hn. unfold deref. rewrite Ha.
  rewrite lookup_app_r by lia.
  by replace (length a + n - length a)%nat with n by lia.
Qed.

Lemma deref_last C l (x : ndarray) t :
  deref {| LOCATION_CACHE := C; arrays := l ++ [x]; trace := t |} (length l) = x.
Proof.
  rewrite <- (Nat.add_0_r (length l)).
  rewrite (deref_new _ l [x] 0); [done|done|simpl; lia].
Qed.

Lemma insert_last {A} (l : list A) x y : <[length l := y]> (l ++ [x]) = l ++ [y].
Proof.
  rewrite insert_app_r_alt by lia. by rewrite Nat.sub_diag.
Qed.

(** Lines 44-48: the copy, the zeroed column, the solver, the route. *)
Lemma optimise_eq r cities open_problem s w :
  optimise {| _distance_matrix := r |} cities open_problem s w =
    let work := if open_problem then set_column 0 0 (deref w r) else deref w r in
    let sol := run_solver s (trace w) work in
    (match mapM (getitem cities) sol.1 with
     | Some route => Returns (route, sol.2)
     | None => Raises IndexError
     end,
     {| LOCATION_CACHE := LOCATION_CACHE w;
        arrays := arrays w ++ [work];
        trace := Solve s work :: trace w |}).
Proof.
  unfold optimise, np_copy, np_array, solver, np_set_column, emit.
  rewrite !bind_eq. cbn [_distance_matrix arrays trace LOCATION_CACHE].
  destruct open_problem; cbn [mret M_ret arrays trace LOCATION_CACHE].
  - rewrite !deref_last, insert_last, !bind_eq, deref_last.
    cbn [mret M_ret arrays trace LOCATION_CACHE]. rewrite !bind_eq, mapM_getitem.
    cbv zeta. by destruct (mapM (getitem cities) _).
  - rewrite !bind_eq, deref_last.
    cbn [mret M_ret arrays trace LOCATION_CACHE]. rewrite !bind_eq, mapM_getitem.
    cbv zeta. by destruct (mapM (getitem cities) _).
Qed.

(** What a call on more than one city does once the rows are built. *)
Lemma solve_built self cities open_problem w rows :
  (1 < length cities)%nat →
  (distance_rows cities w).1 = Returns rows →
  solve self cities open_problem w =
    let w1 := (distance_rows cities w).2 in
    let work := if open_problem then set_column 0 0 rows else rows in
    let sol := run_solver (choose_solver cities) (trace w1) work in
    (match mapM (getitem cities) sol.1 with
     | Some route => Returns (route, sol.2)
     | None => Raises IndexError
     end,
     {| _distance_matrix := length (arrays w1) |},
     {| LOCATION_CACHE := LOCATION_CACHE w1;
        arrays := arrays w1 ++ [rows; work];
        trace := Solve (choose_solver cities) work :: trace w1 |}).
Proof.
  intros Hlen Hrows. unfold solve. rewrite bool_decide_eq_true_2 by done.
  rewrite bind_eq. destruct (distance_rows cities w) as [r w1]. simpl in Hrows. subst r.
  unfold np_array. rewrite optimise_eq, deref_last.
  cbn [fst snd arrays trace LOCATION_CACHE]. cbv zeta.
  by rewrite <- (assoc_L (++)).
Qed.

(** A call whose rows cannot be built raises, and stores nothing. *)
Lemma solve_not_built self cities open_problem w e :
  (1 < length cities)%nat →
  (distance_rows cities w).1 = Raises e →
  solve self cities open_problem w = (Raises e, self, (distance_rows cities w).2).
Proof.
  intros Hlen Hrows. unfold solve. rewrite bool_decide_eq_true_2 by done.
  rewrite bind_eq. destruct (distance_rows cities w) as [r w1]. simpl in Hrows. by subst r.
Qed.

Lemma solve_degenerate self cities open_problem w :
  (length cities ≤ 1)%nat →
  solve self cities open_problem w = (Returns (cities, 0), self, w).
Proof.
  intros Hlen. unfold solve. by rewrite bool_decide_eq_false_2 by lia.
Qed.

Lemma mapM_total {A B} (f : A → result B) l :
  (∀ x, x ∈ l → ∃ y, f x = Returns y) → ∃ k, mapM f l = Returns k.
Proof.
  induction l as [|x l IH]; intros Hf; [by eexists|].
  destruct (Hf x) as [y Hy]; [set_solver|].
  destruct IH as [k Hk]; [intros; apply Hf; set_solver|].
  exists (y :: k).
  change (mapM f (x :: l)) with (f x ≫= λ y, mapM f l ≫= λ k, mret (y :: k)).
  by rewrite Hy, Hk.
Qed.

(** With a geodesic function that always answers, the rows are built. *)
Lemma cached_rows_total C cities :
  (∀ a b, ∃ d, GRC a b = Returns d) →
  ∃ rows, cached_rows C cities = Returns rows.
Proof.
  intros Htotal. unfold cached_rows.
  apply mapM_total. intros i Hi. apply mapM_total. intros j Hj.
  apply elem_of_seq in Hi, Hj. case_bool_decide; [by eexists|].
  unfold getitem_r. rewrite !getitem_of_nat.
  destruct (lookup_lt_is_Some_2 cities i) as [ci ->]; [lia|].
  destruct (lookup_lt_is_Some_2 cities j) as [cj ->]; [lia|].
  unfold mbind, result_bind, cached_distance. case_bool_decide; [by eexists|].
  apply Htotal.
Qed.

Lemma rows_total cities w :
  (∀ a b, ∃ d, GRC a b = Returns d) →
  ∃ rows, (distance_rows cities w).1 = Returns rows.
Proof.
  intros Htotal. destruct (agrees_rows cities w) as [_ Hr].
  destruct (cached_rows_total (LOCATION_CACHE (distance_rows cities w).2) cities Htotal)
    as [rows Hrows].
  exists rows. by rewrite (Hr _ (reflexivity _)).
Qed.

Lemma rows_shape cities w rows :
  (distance_rows cities w).1 = Returns rows →
  length rows = length cities ∧ Forall (λ row, length row = length cities) rows.
Proof.
  intros Hrows. destruct (agrees_rows cities w) as [_ Hr].
  rewrite (Hr _ (reflexivity _)) in Hrows.
  destruct (cached_rows_entries _ _ _ Hrows) as [Hlen Hrow]. split; [done|].
  apply Forall_forall. intros row Hin.
  apply list_elem_of_lookup in Hin as [i Hi]. by apply (Hrow _ _ Hi).
Qed.

(** Building the rows runs no solver. *)
Lemma rows_trace cities w :
  trace (distance_rows cities w).2 = since w (distance_rows cities w).2 ++ trace w
  ∧ solver_calls (since w (distance_rows cities w).2) = []
  ∧ arrays (distance_rows cities w).2 = arrays w.
Proof. destruct (agrees_rows cities w) as [(_ & ? & ? & ?) _]. done. Qed.

Lemma stored_matrix self cities open_problem w rows :
  (1 < length cities)%nat →
  (distance_rows cities w).1 = Returns rows →
  distance_matrix (solve self cities open_problem w).1.2
                  (solve self cities open_problem w).2 = rows.
Proof.
  intros Hlen Hrows. rewrite (solve_built _ _ _ _ _ Hlen Hrows). cbv zeta.
  unfold distance_matrix. cbn [fst snd _distance_matrix].
  rewrite <- (Nat.add_0_r (length (arrays _))).
  erewrite (deref_new _ _ [rows; _] 0); [done|done|simpl; lia].
Qed.

Lemma solve_solver_calls self cities open_problem w rows :
  (1 < length cities)%nat →
  (distance_rows cities w).1 = Returns rows →
  solver_calls (since w (solve self cities open_problem w).2)
  = [(choose_solver cities, if open_problem then set_column 0 0 rows else rows)].
Proof.
  intros Hlen Hrows. rewrite (solve_built _ _ _ _ _ Hlen Hrows). cbv zeta.
  cbn [snd]. destruct (rows_trace cities w) as (Ht & Hs & _).
  erewrite (since_app w _ (Solve _ _ :: since w (distance_rows cities w).2)).
  - simpl. by rewrite Hs.
  - simpl. by rewrite Ht at 1.
Qed.

(** *** Routes *)

Lemma Forall2_Permutation_l {A B} (R : A → B → Prop) l l' k' :
  l ≡ₚ l' → Forall2 R l' k' → ∃ k, Forall2 R l k ∧ k ≡ₚ k'.
Proof.
  intros Hp. revert k'. induction Hp as [|x l l' _ IH|x y l|l l' l'' _ IH1 _ IH2]; intros k' Hk.
  - inversion Hk. by exists [].
  - inversion Hk as [|? y ? k'' Hxy Hrest]; subst.
    destruct (IH _ Hrest) as (k & Hf & Hperm). exists (y :: k). split; [by constructor|].
    by constructor.
  - inversion Hk as [|? a ? k1 Ha Hrest]; subst.
    inversion Hrest as [|? b ? k2 Hb Hrest']; subst.
    exists (b :: a :: k2). split; [by repeat constructor|]. apply perm_swap.
  - destruct (IH2 _ Hk) as (k1 & Hf1 & Hp1). destruct (IH1 _ Hf1) as (k & Hf & Hp2).
    exists k. split; [done|]. by etrans.
Qed.

Lemma getitem_all {A} (pre l : list A) :
  Forall2 (λ i x, getitem (pre ++ l) i = Some x)
          (Z.of_nat <$> seq (length pre) (length l)) l.
Proof.
  revert pre. induction l as [|x l IH]; intros pre; [constructor|].
  simpl. constructor.
  - rewrite getitem_of_nat. by rewrite list_lookup_middle.
  - specialize (IH (pre ++ [x])). rewrite <- (assoc_L (++)) in IH. simpl in IH.
    rewrite length_app in IH. simpl in IH.
    by replace (length pre + 1)%nat with (S (length pre)) in IH by lia.
Qed.

(** The indices 0..N-1 in any order pick a rearrangement of the list. *)
Lemma getitem_permutation {A} (l : list A) idxs :
  idxs ≡ₚ Z.of_nat <$> seq 0 (length l) →
  ∃ route, mapM (getitem l) idxs = Some route ∧ route ≡ₚ l.
Proof.
  intros Hp. destruct (Forall2_Permutation_l _ _ _ _ Hp (getitem_all [] l)) as (k & Hf & Hk).
  exists k. split; [|done]. by apply mapM_Some_2.
Qed.

(** *** The route optimiser *)

(** C1: for more than one city, given that the TSP solver answers with a
    permutation of the indices 0..N-1, whatever [solve] returns is a
    permutation of the input list, of the same length; it raises only when
    building the matrix raised, and returns whenever the geodesic function
    answers. *)
Theorem route_is_permutation_of_cities self cities open_problem w :
  (1 < length cities)%nat →
  (∀ s history a, length a = length cities →
     (run_solver s history a).1 ≡ₚ Z.of_nat <$> seq 0 (length cities)) →
  match (solve self cities open_problem w).1.1 with
  | Returns (route, d) => route ≡ₚ cities ∧ length route = length cities
  | Raises e => (distance_rows cities w).1 = Raises e
  end
  ∧ ((∀ a b, ∃ d, GRC a b = Returns d) →
     ∃ route d, (solve self cities open_problem w).1.1 = Returns (route, d)).
Proof.
  intros Hlen Hperm.
  assert (Hbuilt : ∀ rows, (distance_rows cities w).1 = Returns rows →
            ∃ route d, (solve self cities open_problem w).1.1 = Returns (route, d)
                       ∧ route ≡ₚ cities).
  { intros rows Hrows. rewrite (solve_built _ _ _ _ _ Hlen Hrows). cbv zeta.
    cbn [fst]. destruct (rows_shape _ _ _ Hrows) as [Hn _].
    set (work := if open_problem then set_column 0 0 rows else rows).
    assert (Hwork : length work = length cities).
    { subst work. destruct open_problem; [|done]. unfold set_column. by rewrite length_fmap. }
    destruct (getitem_permutation cities _ (Hperm (choose_solver cities)
                (trace (distance_rows cities w).2) work Hwork)) as (route & -> & Hroute).
    eauto. }
  split.
  - destruct (distance_rows cities w).1 as [rows|e] eqn:Hrows.
    + destruct (Hbuilt rows eq_refl) as (route & d & -> & Hroute).
      split; [done|]. by apply Permutation_length.
    + by rewrite (solve_not_built _ _ _ _ _ Hlen Hrows).
  - intros Htotal. destruct (rows_total cities w Htotal) as [rows Hrows].
    destruct (Hbuilt rows Hrows) as (route & d & Hres & _). eauto.
Qed.

(** C2, as the code has it: with [open_problem] set, the distance [solve]
    returns is the one the chosen solver reports for the working copy, whose
    column 0 is zeroed; the unmodified matrix is stored and is not used for
    the reported distance. *)
Theorem open_problem_reports_solver_distance self cities w rows route d :
  (1 < length cities)%nat →
  (distance_rows cities w).1 = Returns rows →
  (solve self cities true w).1.1 = Returns (route, d) →
  d = (run_solver (choose_solver cities) (trace (distance_rows cities w).2)
         (set_column 0 0 rows)).2
  ∧ distance_matrix (solve self cities true w).1.2
                    (solve self cities true w).2 = rows.
Proof.
  intros Hlen Hrows Hres. split; [|by apply stored_matrix].
  rewrite (solve_built _ _ _ _ _ Hlen Hrows) in Hres. cbv zeta in Hres.
  cbn [fst] in Hres. destruct (mapM (getitem cities) _); [|done].
  by injection Hres as _ <-.
Qed.

(** C3: for more than one city, [solve] picks the dynamic-programming
    solver below ten cities and simulated annealing from ten on.  Once the
    matrix is built it makes one solver call, and what it returns is read off
    the answer of that solver: of [solve_tsp_dynamic_programming] on the
    working matrix below ten cities, so for nine, and of
    [solve_tsp_simulated_annealing] on it from ten cities on, so for ten.
    When building the matrix raises, no solver is called. *)
Theorem solver_chosen_by_size self cities open_problem w :
  (1 < length cities)%nat →
  ((length cities < 10)%nat →
     choose_solver cities = DynamicProgramming
     ∧ ∀ rows, (distance_rows cities w).1 = Returns rows →
         solver_calls (since w (solve self cities open_problem w).2)
         = [(DynamicProgramming, if open_problem then set_column 0 0 rows else rows)]
         ∧ (solve self cities open_problem w).1.1
           = route_of cities
               (solve_tsp_dynamic_programming
                  (if open_problem then set_column 0 0 rows else rows)))
  ∧ ((10 ≤ length cities)%nat →
     choose_solver cities = SimulatedAnnealing
     ∧ ∀ rows, (distance_rows cities w).1 = Returns rows →
         solver_calls (since w (solve self cities open_problem w).2)
         = [(SimulatedAnnealing, if open_problem then set_column 0 0 rows else rows)]
         ∧ (solve self cities open_problem w).1.1
           = route_of cities
               (solve_tsp_simulated_annealing
                  (trace (distance_rows cities w).2)
                  (if open_problem then set_column 0 0 rows else rows)))
  ∧ (∀ e, (distance_rows cities w).1 = Raises e →
       solver_calls (since w (solve self cities open_problem w).2) = []).
Proof.
  intros Hlen. split_and!.
  - intros Hsize.
    assert (Hs : choose_solver cities = DynamicProgramming).
    { unfold choose_solver. by rewrite bool_decide_eq_true_2. }
    split; [done|]. intros rows Hrows.
    rewrite (solve_solver_calls _ _ _ _ _ Hlen Hrows).
    rewrite (solve_built _ _ _ _ _ Hlen Hrows). cbv zeta. cbn [fst].
    by rewrite Hs.
  - intros Hsize.
    assert (Hs : choose_solver cities = SimulatedAnnealing).
    { unfold choose_solver. by rewrite bool_decide_eq_false_2 by lia. }
    split; [done|]. intros rows Hrows.
    rewrite (solve_solver_calls _ _ _ _ _ Hlen Hrows).
    rewrite (solve_built _ _ _ _ _ Hlen Hrows). cbv zeta. cbn [fst].
    by rewrite Hs.
  - intros e Hrows. rewrite (solve_not_built _ _ _ _ _ Hlen Hrows). cbn [snd].
    by destruct (rows_trace cities w) as (_ & ? & _).
Qed.

(** C4: on a list of length 0 or 1, [solve] returns the list itself with
    distance 0.0 and leaves the object and the world as they were: no array
    is made, and no solver, geocoder or cache event is recorded. *)
Theorem degenerate_input_returned_unchanged self cities open_problem w :
  (length cities ≤ 1)%nat →
  solve self cities open_problem w = (Returns (cities, 0), self, w)
  ∧ since w (solve self cities open_problem w).2 = [].
Proof.
  intros Hlen. rewrite (solve_degenerate _ _ _ _ Hlen). split; [done|].
  by apply since_app.
Qed.

(** C5: for more than one city, given a symmetric and non-negative geodesic
    function, the matrix that [solve] builds and stores is N x N, has 0.0 on
    its diagonal, and its entries are non-negative and equal across the
    diagonal. *)
Theorem stored_matrix_square_symmetric self cities open_problem w rows :
  (∀ a b, GRC a b = GRC b a) →
  (∀ a b d, GRC a b = Returns d → PrimFloat.leb 0 d = true) →
  (1 < length cities)%nat →
  (distance_rows cities w).1 = Returns rows →
  distance_matrix (solve self cities open_problem w).1.2
                  (solve self cities open_problem w).2 = rows
  ∧ length rows = length cities
  ∧ Forall (λ row, length row = length cities) rows
  ∧ (∀ i, (i < length cities)%nat → at_ rows i i = Some 0)
  ∧ (∀ i j, (i < length cities)%nat → (j < length cities)%nat →
       ∃ d, at_ rows i j = Some d ∧ at_ rows j i = Some d
            ∧ PrimFloat.leb 0 d = true).
Proof.
  intros Hsym Hpos Hlen Hrows. split; [by apply stored_matrix|].
  destruct (agrees_rows cities w) as [_ Hr].
  rewrite (Hr _ (reflexivity _)) in Hrows.
  by apply (cached_rows_matrix _ _ _ Hsym Hpos Hrows).
Qed.

Lemma at_set_column rows i j :
  at_ (set_column 0 0 rows) i j
  = if bool_decide (j = 0%nat) then at_ rows i 0 ≫= λ _, Some 0 else at_ rows i j.
Proof.
  unfold at_, set_column. rewrite list_lookup_fmap.
  destruct (rows !! i) as [row|]; simpl; [|by case_bool_decide].
  case_bool_decide as Hj.
  - subst j. by destruct row.
  - by rewrite list_lookup_insert_ne.
Qed.

(** C6: with [open_problem] set and more than one city, column 0 is zeroed
    in a copy only: the solver is called on the copy, the array that
    [distance_matrix] exposes afterwards is the one just built, unmodified,
    and the arrays that existed before the call are untouched. *)
Theorem open_problem_zeroes_a_copy self cities w rows :
  (1 < length cities)%nat →
  (distance_rows cities w).1 = Returns rows →
  distance_matrix (solve self cities true w).1.2 (solve self cities true w).2
    = rows
  ∧ solver_calls (since w (solve self cities true w).2)
    = [(choose_solver cities, set_column 0 0 rows)]
  ∧ arrays (solve self cities true w).2
    = arrays w ++ [rows; set_column 0 0 rows]
  ∧ _distance_matrix (solve self cities true w).1.2 = length (arrays w)
  ∧ (∀ i, (i < length cities)%nat → at_ (set_column 0 0 rows) i 0 = Some 0)
  ∧ (∀ i j, j ≠ 0%nat → at_ (set_column 0 0 rows) i j = at_ rows i j).
Proof.
  intros Hlen Hrows. split_and!.
  - by apply stored_matrix.
  - by rewrite (solve_solver_calls _ _ _ _ _ Hlen Hrows).
  - rewrite (solve_built _ _ _ _ _ Hlen Hrows). cbv zeta. cbn [snd arrays].
    by destruct (rows_trace cities w) as (_ & _ & ->).
  - rewrite (solve_built _ _ _ _ _ Hlen Hrows). cbv zeta. cbn [fst snd _distance_matrix].
    by destruct (rows_trace cities w) as (_ & _ & ->).
  - intros i Hi. rewrite at_set_column. simpl.
    destruct (rows_shape _ _ _ Hrows) as [Hn Hrow]. unfold at_.
    destruct (lookup_lt_is_Some_2 rows i) as [row Hr]; [lia|]. rewrite Hr. simpl.
    assert (length row = length cities) as Hl.
    { eapply Forall_forall in Hrow; [done|]. by eapply list_elem_of_lookup_2. }
    destruct (lookup_lt_is_Some_2 row 0) as [v ->]; [lia|]. done.
  - intros i j Hj. rewrite at_set_column. by rewrite bool_decide_eq_false_2.
Qed.

(** C10: a call on a list of length 0 or 1 leaves [distance_matrix] as it
    was: right after construction it is still the uninitialised 2 x 2
    array, and after an earlier call on more than one city it is still that
    call's matrix, not one for the present input. *)
Theorem degenerate_solve_keeps_stored_matrix cities open_problem :
  (length cities ≤ 1)%nat →
  (∀ self w,
     distance_matrix (solve self cities open_problem w).1.2
                     (solve self cities open_problem w).2
     = distance_matrix self w)
  ∧ (∀ a b c d w0 self w,
       TSPSolver_init (a, b, c, d) w0 = (Returns self, w) →
       distance_matrix (solve self cities open_problem w).1.2
                       (solve self cities open_problem w).2
       = [[a; b]; [c; d]])
  ∧ (∀ self w earlier open_earlier rows,
       (1 < length earlier)%nat →
       (distance_rows earlier w).1 = Returns rows →
       let before := solve self earlier open_earlier w in
       distance_matrix (solve before.1.2 cities open_problem before.2).1.2
                       (solve before.1.2 cities open_problem before.2).2
       = rows).
Proof.
  intros Hlen. split_and!.
  - intros self w. by rewrite (solve_degenerate _ _ _ _ Hlen).
  - intros a b c d w0 self w Hinit. rewrite (solve_degenerate _ _ _ _ Hlen).
    cbn [fst snd]. unfold TSPSolver_init in Hinit. rewrite bind_eq in Hinit.
    unfold np_array in Hinit. injection Hinit as <- <-.
    unfold distance_matrix. cbn [_distance_matrix]. apply deref_last.
  - intros self w earlier open_earlier rows Hmore Hrows. cbv zeta.
    rewrite (solve_degenerate _ _ _ _ Hlen). cbn [fst snd].
    by apply stored_matrix.
Qed.

End properties.

(** * The model at work *)

(** Facts settled by running the model, and list lengths. *)
Ltac by_running := vm_compute; reflexivity.
Ltac by_counting := unfold three_cities, nine_cities, ten_cities; simpl; lia.

Lemma new_solver_init :
  TSPSolver_init (0, 0, 0, 0) process_start = (Returns new_solver, new_world).
Proof. reflexivity. Qed.

Lemma ends_are_sym l1 l2 a b : ends_are l1 l2 a b = ends_are l1 l2 b a.
Proof.
  unfold ends_are.
  by destruct (is_at l1 a), (is_at l2 b), (is_at l2 a), (is_at l1 b).
Qed.

Lemma sample_GRC_sym a b : sample_GRC a b = sample_GRC b a.
Proof.
  unfold sample_GRC. rewrite (andb_comm (resolved a)).
  by rewrite !(ends_are_sym _ _ a b).
Qed.

Lemma sample_GRC_nonneg a b d :
  sample_GRC a b = Returns d → PrimFloat.leb 0 d = true.
Proof.
  unfold sample_GRC. destruct (resolved a && resolved b); [|done].
  intros [= <-].
  by destruct (ends_are rome florence a b), (ends_are florence venice a b),
              (ends_are rome venice a b).
Qed.

Lemma sample_GRC_faults : faults_on_absent sample_GRC.
Proof.
  intros a b [->| ->]; exists TypeError; unfold sample_GRC; [done|].
  by rewrite andb_comm.
Qed.

Lemma sample_heuristic_permutation history a :
  (sample_heuristic history a).1 ≡ₚ Z.of_nat <$> seq 0 (length a).
Proof. done. Qed.

Lemma sample_exact_permutation a :
  (0 < length a)%nat → (sample_exact a).1 ≡ₚ Z.of_nat <$> seq 0 (length a).
Proof.
  intros Hlen. unfold sample_exact. cbn [fst].
  set (stops := Z.of_nat <$> seq 1 (length a - 1)).
  assert (Hall : Z.of_nat <$> seq 0 (length a) = 0%Z :: stops).
  { subst stops. destruct (length a) as [|n]; [lia|]. simpl. by rewrite Nat.sub_0_r. }
  rewrite Hall.
  assert (Htours : Forall (λ p, p ≡ₚ 0%Z :: stops) ((λ p, 0%Z :: p) <$> permutations stops)).
  { apply Forall_fmap, Forall_forall. intros q Hq. simpl.
    apply permutations_Permutation in Hq. by rewrite Hq. }
  induction Htours as [|p tours Hp _ IH]; [done|].
  simpl. unfold better at 1. by destruct (PrimFloat.ltb _ _).
Qed.

Lemma sample_solvers_permutation (cities : list string) s history a :
  (1 < length cities)%nat → length a = length cities →
  (@run_solver sample s history a).1
  ≡ₚ Z.of_nat <$> seq 0 (length cities).
Proof.
  intros Hlen Ha. rewrite <- Ha. destruct s; simpl.
  - apply sample_exact_permutation. lia.
  - apply (sample_heuristic_permutation history).
Qed.

(** C1 at work: three cities, closed tour. *)
Lemma route_is_permutation_witness :
  match (sample_solve new_solver three_cities false new_world).1.1 with
  | Returns (route, d) => route ≡ₚ three_cities ∧ length route = length three_cities
  | Raises e => (sample_rows three_cities new_world).1 = Raises e
  end
  ∧ ((∀ a b, ∃ d, sample_GRC a b = Returns d) →
     ∃ route d,
       (sample_solve new_solver three_cities false new_world).1.1 = Returns (route, d)).
Proof.
  apply (@route_is_permutation_of_cities sample new_solver three_cities false new_world).
  - by_counting.
  - intros s history a Ha. apply sample_solvers_permutation; [simpl; lia|done].
Defined.

(** C2 at work: the open tour Rome, Florence, Venice is reported as 435.5 km,
    the length the solver finds in the copy with column 0 zeroed. *)
Lemma open_problem_distance_witness :
  435.5 = (@run_solver sample (choose_solver three_cities)
             (trace (sample_rows three_cities new_world).2)
             (set_column 0 0 three_cities_matrix)).2
  ∧ distance_matrix (sample_solve new_solver three_cities true new_world).1.2
                    (sample_solve new_solver three_cities true new_world).2
    = three_cities_matrix.
Proof.
  apply (@open_problem_reports_solver_distance sample new_solver three_cities new_world
           three_cities_matrix three_cities 435.5).
  - simpl. lia.
  - by_running.
  - by_running.
Defined.

(** C2 as stated fails: for Rome, Florence, Venice with [open_problem] set,
    the tour 0, 1, 2 is returned with distance 435.5, while its closed-loop
    length in the unmodified matrix is 829.75. *)
Lemma open_problem_distance_is_not_closed_loop :
  let run := sample_solve new_solver three_cities true new_world in
  let unmodified := distance_matrix run.1.2 run.2 in
  run.1.1 = Returns (["Rome"; "Florence"; "Venice"], 435.5)
  ∧ unmodified = [[0; 231.5; 394.25]; [231.5; 0; 204]; [394.25; 204; 0]]
  ∧ (sample_exact (set_column 0 0 unmodified)).1 = [0; 1; 2]%Z
  ∧ tour_length unmodified [0; 1; 2]%Z = 829.75
  ∧ ¬ (∀ route d, run.1.1 = Returns (route, d) →
                  d = tour_length unmodified [0; 1; 2]%Z).
Proof.
  cbv zeta. split_and!; [by_running..|].
  intros Hclaim. specialize (Hclaim three_cities 435.5 eq_refl).
  apply (f_equal (λ x, PrimFloat.eqb x 435.5)) in Hclaim.
  vm_compute in Hclaim. discriminate.
Qed.

(** C3 at work: nine cities go to the exact solver, ten to the
    heuristic. *)
Lemma solver_chosen_by_size_witness :
  (solver_calls (since new_world (sample_solve new_solver nine_cities false new_world).2)
   = [(DynamicProgramming, nine_cities_matrix)]
   ∧ (sample_solve new_solver nine_cities false new_world).1.1
     = route_of nine_cities (sample_exact nine_cities_matrix))
  ∧ (solver_calls (since new_world (sample_solve new_solver ten_cities false new_world).2)
     = [(SimulatedAnnealing, ten_cities_matrix)]
     ∧ (sample_solve new_solver ten_cities false new_world).1.1
       = route_of ten_cities
           (sample_heuristic (trace (sample_rows ten_cities new_world).2)
              ten_cities_matrix)).
Proof.
  assert (H9 : (1 < length nine_cities)%nat) by by_counting.
  assert (H10 : (1 < length ten_cities)%nat) by by_counting.
  destruct (@solver_chosen_by_size sample new_solver nine_cities false new_world H9)
    as (Hdp & _ & _).
  destruct (@solver_chosen_by_size sample new_solver ten_cities false new_world H10)
    as (_ & Hsa & _).
  split.
  - apply Hdp; [by_counting|by_running].
  - apply Hsa; [by_counting|by_running].
Defined.

(** C4 at work: a single city. *)
Lemma degenerate_input_witness :
  sample_solve new_solver ["Rome"] true new_world
    = (Returns (["Rome"], 0), new_solver, new_world)
  ∧ since new_world (sample_solve new_solver ["Rome"] true new_world).2 = [].
Proof.
  apply (@degenerate_input_returned_unchanged sample new_solver ["Rome"] true new_world).
  simpl. lia.
Defined.

(** C5 at work: the matrix of the three cities. *)
Lemma stored_matrix_witness :
  distance_matrix (sample_solve new_solver three_cities false new_world).1.2
                  (sample_solve new_solver three_cities false new_world).2
    = three_cities_matrix
  ∧ length three_cities_matrix = length three_cities
  ∧ Forall (λ row, length row = length three_cities) three_cities_matrix
  ∧ (∀ i, (i < length three_cities)%nat → at_ three_cities_matrix i i = Some 0)
  ∧ (∀ i j, (i < length three_cities)%nat → (j < length three_cities)%nat →
       ∃ d, at_ three_cities_matrix i j = Some d
            ∧ at_ three_cities_matrix j i = Some d
            ∧ PrimFloat.leb 0 d = true).
Proof.
  apply (@stored_matrix_square_symmetric sample new_solver three_cities false new_world
           three_cities_matrix).
  - apply sample_GRC_sym.
  - apply sample_GRC_nonneg.
  - simpl. lia.
  - by_running.
Defined.

(** C6 at work: the stored matrix keeps its first column. *)
Lemma open_problem_copy_witness :
  distance_matrix (sample_solve new_solver three_cities true new_world).1.2
                  (sample_solve new_solver three_cities true new_world).2
    = three_cities_matrix
  ∧ solver_calls (since new_world (sample_solve new_solver three_cities true new_world).2)
    = [(choose_solver three_cities, set_column 0 0 three_cities_matrix)]
  ∧ arrays (sample_solve new_solver three_cities true new_world).2
    = arrays new_world ++ [three_cities_matrix; set_column 0 0 three_cities_matrix]
  ∧ _distance_matrix (sample_solve new_solver three_cities true new_world).1.2
    = length (arrays new_world)
  ∧ (∀ i, (i < length three_cities)%nat →
       at_ (set_column 0 0 three_cities_matrix) i 0 = Some 0)
  ∧ (∀ i j, j ≠ 0%nat →
       at_ (set_column 0 0 three_cities_matrix) i j = at_ three_cities_matrix i j).
Proof.
  apply (@open_problem_zeroes_a_copy sample new_solver three_cities new_world
           three_cities_matrix).
  - simpl. lia.
  - by_running.
Defined.

(** C7 at work: two spellings of one name. *)
Lemma same_place_distance_witness :
  sample_distance "Rome" "ROME" process_start = (Returns 0, process_start)
  ∧ since process_start (sample_distance "Rome" "ROME" process_start).2 = [].
Proof.
  apply (@same_place_distance_zero sample
           "Rome" "ROME" process_start).
  reflexivity.
Defined.

(** C8 at work: a name the provider does not know, asked for three times
    in different spellings with another query in between. *)
Lemma query_asks_provider_once_witness :
  let answer := sample_geocode (CacheContains "atlantis" :: trace process_start) "Atlantis" in
  let w1 := (sample_query "Atlantis" process_start).2 in
  let w2 := (mapM sample_query ["Rome"; "atlantis"] w1).2 in
  let w3 := (sample_query "ATLANTIS" w2).2 in
  (sample_query "Atlantis" process_start).1 = Returns answer
  ∧ LOCATION_CACHE w1 = <[str_lower "Atlantis" := answer]> (LOCATION_CACHE process_start)
  ∧ geocoded (since process_start w1) = ["Atlantis"]
  ∧ (sample_query "ATLANTIS" w2).1 = Returns answer
  ∧ LOCATION_CACHE w3 = LOCATION_CACHE w2
  ∧ geocoded (since w2 w3) = []
  ∧ filter (λ m, str_lower m = str_lower "Atlantis") (geocoded (since process_start w3))
    = ["Atlantis"]
  ∧ NoDup (str_lower <$> geocoded (since process_start w3)).
Proof.
  apply (@query_asks_provider_once sample "Atlantis" "ATLANTIS"
           ["Rome"; "atlantis"] process_start).
  - reflexivity.
  - reflexivity.
Defined.

(** C9 at work: a place the provider does not know. *)
Lemma unresolved_location_witness :
  (sample_coordinates "Atlantis" process_start).1 = Returns absent
  ∧ ∃ c1 c2 e,
      (sample_coordinates "Rome" process_start).1 = Returns c1
      ∧ (sample_coordinates "Atlantis" (sample_coordinates "Rome" process_start).2).1
        = Returns c2
      ∧ (as_point c1 = (None, None) ∨ as_point c2 = (None, None))
      ∧ head (trace (sample_distance "Rome" "Atlantis" process_start).2)
        = Some (Geodesic (as_point c1) (as_point c2))
      ∧ (sample_distance "Rome" "Atlantis" process_start).1
        = sample_GRC (as_point c1) (as_point c2)
      ∧ (sample_distance "Rome" "Atlantis" process_start).1 = Raises e.
Proof.
  destruct (@unresolved_location_reaches_geodesic sample) as (_ & Hnone & Hdist).
  split.
  - apply Hnone; reflexivity.
  - apply (Hdist "Rome" "Atlantis" process_start).
    + apply sample_GRC_faults.
    + vm_compute. discriminate.
    + right. by_running.
Defined.

(** C10 at work: an empty list right after construction, and after a call
    on three cities. *)
Lemma degenerate_solve_keeps_stored_matrix_witness :
  (∀ self w,
     distance_matrix (sample_solve self [] false w).1.2 (sample_solve self [] false w).2
     = distance_matrix self w)
  ∧ distance_matrix (sample_solve new_solver [] false new_world).1.2
                    (sample_solve new_solver [] false new_world).2
    = [[0; 0]; [0; 0]]
  ∧ (let before := sample_solve new_solver three_cities true new_world in
     distance_matrix (sample_solve before.1.2 [] false before.2).1.2
                     (sample_solve before.1.2 [] false before.2).2
     = three_cities_matrix).
Proof.
  assert (Hlen : (length (@nil string) ≤ 1)%nat) by (simpl; lia).
  destruct (@degenerate_solve_keeps_stored_matrix sample [] false Hlen)
    as (Hsame & Hinit & Hearlier).
  split_and!.
  - exact Hsame.
  - apply (Hinit 0 0 0 0 process_start). reflexivity.
  - apply (Hearlier new_solver new_world three_cities true three_cities_matrix).
    + by_counting.
    + by_running.
Defined.

(** * Properties of the rest of the code *)

(** ** remove_consecutive_duplicates *)

Section consecutive_duplicates.

Context {A : Type} `{EqDecision A}.

Implicit Types l : list A.

Lemma remove_from_middle (pre l : list A) :
  omap (λ '(i, elem),
          if bool_decide (i = 0%nat)
             || negb (bool_decide (getitem (pre ++ l) (Z.of_nat i - 1) = Some elem))
          then Some elem else None)
       (imap (λ i x, (length pre + i, x)%nat) l)
  = after_element (last pre) l.
Proof.
  revert pre. induction l as [|x l IH]; intros pre; [done|].
  rewrite imap_cons.
  specialize (IH (pre ++ [x])). rewrite <- (assoc_L (++)) in IH. simpl in IH.
  rewrite last_snoc, length_app in IH. simpl in IH.
  assert (Hshift : imap ((λ i y, (length pre + i, y)%nat) ∘ S) l
                   = imap (λ i y, (length pre + 1 + i, y)%nat) l).
  { apply imap_ext. intros i y _. simpl. f_equal. lia. }
  rewrite Hshift. clear Hshift.
  change (omap ?f (?p :: ?k)) with
    (match f p with Some y => y :: omap f k | None => omap f k end).
  rewrite IH. clear IH. cbn [after_element]. rewrite Nat.add_0_r.
  destruct pre as [|p pre _] using rev_ind.
  - done.
  - rewrite last_snoc, length_app. simpl length.
    rewrite bool_decide_eq_false_2 by lia. rewrite orb_false_l.
    replace (Z.of_nat (length pre + 1) - 1)%Z with (Z.of_nat (length pre)) by lia.
    rewrite getitem_of_nat, <- (assoc_L (++)). simpl app.
    rewrite list_lookup_middle by done.
    destruct (decide (p = x)) as [->|Hne].
    + by rewrite !bool_decide_eq_true_2.
    + rewrite !bool_decide_eq_false_2; [done|congruence..].
Qed.

Lemma remove_consecutive_duplicates_eq l :
  remove_consecutive_duplicates l = after_element None l.
Proof. apply (remove_from_middle [] l). Qed.

Lemma no_equal_neighbours_cons x l :
  no_equal_neighbours (x :: l) ↔ head l ≠ Some x ∧ no_equal_neighbours l.
Proof.
  split.
  - intros Hn. split.
    + destruct l as [|y l]; [done|]. simpl. intros [= ->].
      by apply (Hn 0%nat x x).
    + intros i a b Ha Hb. by apply (Hn (S i) a b).
  - intros [Hh Hn] [|i] a b Ha Hb.
    + simpl in Ha. injection Ha as <-. destruct l as [|y l]; [done|].
      simpl in Hb, Hh. injection Hb as <-. congruence.
    + by apply (Hn i a b).
Qed.

Lemma after_element_head (b : A) l : head (after_element (Some b) l) ≠ Some b.
Proof.
  induction l as [|x l IH]; [done|]. simpl. case_bool_decide as Hx.
  - injection Hx as <-. done.
  - simpl. congruence.
Qed.

Lemma after_element_neighbours before l :
  no_equal_neighbours (after_element before l).
Proof.
  revert before. induction l as [|x l IH]; intros before; simpl.
  - by intros i ? ? ?.
  - case_bool_decide; [done|]. apply no_equal_neighbours_cons. split; [|done].
    apply after_element_head.
Qed.

Lemma after_element_sublist before l : after_element before l `sublist_of` l.
Proof.
  revert before. induction l as [|x l IH]; intros before; simpl; [done|].
  case_bool_decide; by constructor.
Qed.

Lemma after_element_keeps before l x :
  x ∈ l → x ∈ after_element before l ∨ before = Some x.
Proof.
  revert before. induction l as [|y l IH]; intros before Hx; [by inversion Hx|].
  simpl. apply elem_of_cons in Hx as [->|Hx].
  - case_bool_decide; [by right|]. left. by left.
  - destruct (IH (Some y) Hx) as [Hin|[= ->]].
    + left. case_bool_decide; [done|]. by right.
    + case_bool_decide; [by right|]. left. by left.
Qed.

Lemma after_element_fixed before l :
  head l ≠ before ∨ l = [] → no_equal_neighbours l → after_element before l = l.
Proof.
  revert before. induction l as [|x l IH]; intros before Hh Hn; [done|].
  simpl. apply no_equal_neighbours_cons in Hn as [Hx Hn].
  rewrite bool_decide_eq_false_2.
  - f_equal. apply IH; [|done]. destruct l; [by right|by left].
  - destruct Hh as [Hh|?]; [|done]. simpl in Hh. congruence.
Qed.

(** X1: the result of [remove_consecutive_duplicates] has no two equal
    neighbours. *)
Theorem remove_consecutive_duplicates_no_neighbours l :
  no_equal_neighbours (remove_consecutive_duplicates l).
Proof.
  rewrite remove_consecutive_duplicates_eq. apply after_element_neighbours.
Qed.

(** X2: [remove_consecutive_duplicates] only drops elements: what is left is
    in the order of the input, starts with the same element, and every value
    of the input still occurs. *)
Theorem remove_consecutive_duplicates_keeps_values l :
  remove_consecutive_duplicates l `sublist_of` l
  ∧ head (remove_consecutive_duplicates l) = head l
  ∧ ∀ x, x ∈ remove_consecutive_duplicates l ↔ x ∈ l.
Proof.
  rewrite remove_consecutive_duplicates_eq. split_and!.
  - apply after_element_sublist.
  - by destruct l.
  - intros x. split.
    + intros Hx. eapply elem_of_sublist; [exact Hx|]. apply after_element_sublist.
    + intros Hx. by destruct (after_element_keeps None l x Hx).
Qed.

(** X3: a list is left as it is exactly when it has no two equal neighbours,
    so that removing twice is the same as removing once. *)
Theorem remove_consecutive_duplicates_fixed_point l :
  (remove_consecutive_duplicates l = l ↔ no_equal_neighbours l)
  ∧ remove_consecutive_duplicates (remove_consecutive_duplicates l)
    = remove_consecutive_duplicates l.
Proof.
  assert (Hfix : ∀ k : list A, no_equal_neighbours k → remove_consecutive_duplicates k = k).
  { intros k Hk. rewrite remove_consecutive_duplicates_eq.
    apply after_element_fixed; [|done]. destruct k; [by right|by left]. }
  split_and!.
  - split; [|apply Hfix]. intros <-.
    rewrite remove_consecutive_duplicates_eq. apply after_element_neighbours.
  - apply Hfix. rewrite remove_consecutive_duplicates_eq. apply after_element_neighbours.
Qed.

End consecutive_duplicates.

(** ** GeoCoder: types and countries *)

Section geocoder_types_properties.

Context `{Libraries} `{Photon_raw}.

Lemma query_returns n w : ∃ v, _query n w = (Returns v, (_query n w).2).
Proof.
  destruct (query_post n w) as (v & Hv & _). exists v.
  destruct (_query n w) as [r w']. simpl in *. by subst.
Qed.

Lemma location_type_eq n w v :
  (_query n w).1 = Returns v →
  _location_type n w = (type_of v, (_query n w).2).
Proof.
  intros Hv. unfold _location_type. rewrite bind_eq.
  destruct (_query n w) as [r w']. simpl in Hv. subst r. cbn [snd].
  destruct v as [l|]; [|done]. unfold type_of. rewrite bind_eq. unfold lift.
  by destruct (item (raw l) "properties").
Qed.

Lemma country_eq n w v :
  (_query n w).1 = Returns v →
  country_from_location_name n w = (country_of v, (_query n w).2).
Proof.
  intros Hv. unfold country_from_location_name. rewrite bind_eq.
  destruct (_query n w) as [r w']. simpl in Hv. subst r. cbn [snd].
  destruct v as [l|]; [|done]. unfold country_of. rewrite bind_eq. unfold lift.
  by destruct (item (raw l) "properties").
Qed.

Lemma is_location_country_city_state_eq n w v :
  (_query n w).1 = Returns v →
  is_location_country_city_state n w
  = (answer ["country"; "state"; "city"] (type_of v), (_query n w).2).
Proof.
  intros Hv. unfold is_location_country_city_state.
  rewrite bind_eq, (location_type_eq _ _ _ Hv).
  destruct (type_of v) as [t|e]; [|done]. simpl. by destruct (truthy t).
Qed.

Lemma is_a_country_eq n w v :
  (_query n w).1 = Returns v →
  is_a_country n w = (answer ["country"; "state"] (type_of v), (_query n w).2).
Proof.
  intros Hv. unfold is_a_country.
  rewrite bind_eq, (location_type_eq _ _ _ Hv).
  destruct (type_of v) as [t|e]; [|done]. simpl. by destruct (truthy t).
Qed.

(** A later query in any spelling finds what an earlier one left. *)
Lemma query_again n n' w w' :
  lower n' = lower n →
  LOCATION_CACHE (_query n w).2 ⊆ LOCATION_CACHE w' →
  (_query n' w').1 = (_query n w).1
  ∧ geocoded (since w' (_query n' w').2) = []
  ∧ LOCATION_CACHE (_query n' w').2 = LOCATION_CACHE w'.
Proof.
  intros Hfold Hsub. destruct (query_post n w) as (v & Hr & Hv & _).
  assert (Hk : LOCATION_CACHE w' !! lower n' = Some v).
  { rewrite Hfold. by eapply lookup_weaken. }
  destruct (query_trace n' w') as [_ Hg]. rewrite Hk in Hg.
  rewrite Hr. by rewrite (query_hit _ _ _ Hk) in *.
Qed.

(** X4: for a name the provider does not know, the type and the country
    are [None] and both tests answer [False]; none of the four methods
    raises. *)
Theorem unresolved_place_has_no_type n w :
  (_query n w).1 = Returns None →
  (_location_type n w).1 = Returns JNone
  ∧ (country_from_location_name n w).1 = Returns JNone
  ∧ (is_location_country_city_state n w).1 = Returns false
  ∧ (is_a_country n w).1 = Returns false.
Proof.
  intros Hq.
  rewrite (location_type_eq _ _ _ Hq), (country_eq _ _ _ Hq),
    (is_location_country_city_state_eq _ _ _ Hq), (is_a_country_eq _ _ _ Hq).
  done.
Qed.

(** X5: once a name has been looked up, the country, the type tests and
    their faults are the same for every spelling of it in every later world,
    and asking again sends nothing to the provider. *)
Theorem place_answers_do_not_change n n' w w' :
  lower n' = lower n →
  LOCATION_CACHE (_query n w).2 ⊆ LOCATION_CACHE w' →
  (is_a_country n' w').1 = (is_a_country n w).1
  ∧ (is_location_country_city_state n' w').1 = (is_location_country_city_state n w).1
  ∧ (country_from_location_name n' w').1 = (country_from_location_name n w).1
  ∧ geocoded (since w' (is_a_country n' w').2) = []
  ∧ geocoded (since w' (is_location_country_city_state n' w').2) = []
  ∧ geocoded (since w' (country_from_location_name n' w').2) = [].
Proof.
  intros Hfold Hsub.
  destruct (query_again n n' w w' Hfold Hsub) as (Hsame & Hquiet & _).
  destruct (query_returns n w) as [v Hv]. apply (f_equal fst) in Hv. cbn [fst] in Hv.
  assert (Hv' : (_query n' w').1 = Returns v) by congruence.
  rewrite (is_a_country_eq _ _ _ Hv), (is_a_country_eq _ _ _ Hv'),
    (is_location_country_city_state_eq _ _ _ Hv),
    (is_location_country_city_state_eq _ _ _ Hv'),
    (country_eq _ _ _ Hv), (country_eq _ _ _ Hv').
  done.
Qed.

Lemma among_more v :
  among v ["country"; "state"] = true → among v ["country"; "state"; "city"] = true.
Proof.
  destruct v; try done. simpl. rewrite !orb_false_r.
  intros Hv. apply orb_true_iff in Hv as [->| ->]; [done|by rewrite orb_true_r].
Qed.

(** X6: what [is_a_country] accepts, [is_location_country_city_state]
    accepts too, for any spelling of the name and in any later world. *)
Theorem country_is_country_city_or_state n n' w w' :
  lower n' = lower n →
  LOCATION_CACHE (_query n w).2 ⊆ LOCATION_CACHE w' →
  (is_a_country n w).1 = Returns true →
  (is_location_country_city_state n' w').1 = Returns true.
Proof.
  intros Hfold Hsub.
  destruct (query_again n n' w w' Hfold Hsub) as (Hsame & _).
  destruct (query_returns n w) as [v Hv]. apply (f_equal fst) in Hv. cbn [fst] in Hv.
  assert (Hv' : (_query n' w').1 = Returns v) by congruence.
  rewrite (is_a_country_eq _ _ _ Hv), (is_location_country_city_state_eq _ _ _ Hv').
  cbn [fst]. destruct (type_of v) as [t|e]; [|done]. simpl.
  intros [= Ht]. apply andb_true_iff in Ht as [-> Ht].
  by rewrite (among_more _ Ht).
Qed.

(** X7: for a place the provider knows, a missing key is a fault and not
    an answer: without a ["type"] entry both type tests raise [KeyError],
    and without a ["country"] entry [country_from_location_name] does. *)
Theorem missing_property_raises n w l properties :
  (_query n w).1 = Returns (Some l) →
  item (raw l) "properties" = Returns (JDict properties) →
  (dict_get "type" properties = None →
     (is_a_country n w).1 = Raises KeyError
     ∧ (is_location_country_city_state n w).1 = Raises KeyError)
  ∧ (dict_get "country" properties = None →
     (country_from_location_name n w).1 = Raises KeyError).
Proof.
  intros Hq Hp. split.
  - intros Ht.
    rewrite (is_a_country_eq _ _ _ Hq), (is_location_country_city_state_eq _ _ _ Hq).
    unfold type_of. rewrite Hp. simpl. by rewrite Ht.
  - intros Hc. rewrite (country_eq _ _ _ Hq). unfold country_of. rewrite Hp.
    simpl. by rewrite Hc.
Qed.

End geocoder_types_properties.

(** X4 at work: Atlantis. *)
Lemma unresolved_place_witness :
  (@_location_type sample sample_photon_raw "Atlantis" process_start).1 = Returns JNone
  ∧ (@country_from_location_name sample sample_photon_raw "Atlantis" process_start).1
    = Returns JNone
  ∧ (@is_location_country_city_state sample sample_photon_raw "Atlantis" process_start).1
    = Returns false
  ∧ (@is_a_country sample sample_photon_raw "Atlantis" process_start).1 = Returns false.
Proof.
  apply (@unresolved_place_has_no_type sample sample_photon_raw "Atlantis" process_start).
  by_running.
Defined.

(** X5 at work: Florence, then FLORENCE after a query for Rome. *)
Lemma place_answers_witness :
  let w' := (sample_query "Rome" (sample_query "Florence" process_start).2).2 in
  (@is_a_country sample sample_photon_raw "FLORENCE" w').1
  = (@is_a_country sample sample_photon_raw "Florence" process_start).1
  ∧ (@is_location_country_city_state sample sample_photon_raw "FLORENCE" w').1
    = (@is_location_country_city_state sample sample_photon_raw "Florence" process_start).1
  ∧ (@country_from_location_name sample sample_photon_raw "FLORENCE" w').1
    = (@country_from_location_name sample sample_photon_raw "Florence" process_start).1
  ∧ geocoded (since w' (@is_a_country sample sample_photon_raw "FLORENCE" w').2) = []
  ∧ geocoded (since w'
       (@is_location_country_city_state sample sample_photon_raw "FLORENCE" w').2) = []
  ∧ geocoded (since w'
       (@country_from_location_name sample sample_photon_raw "FLORENCE" w').2) = [].
Proof.
  apply (@place_answers_do_not_change sample sample_photon_raw "Florence" "FLORENCE"
           process_start).
  - reflexivity.
  - destruct (@query_post sample "Rome" (sample_query "Florence" process_start).2)
      as (_ & _ & _ & Hsub & _). exact Hsub.
Defined.

(** X6 at work: the state of Florence. *)
Lemma country_is_country_city_or_state_witness :
  (@is_location_country_city_state sample sample_photon_raw "florence"
     (sample_query "Florence" process_start).2).1 = Returns true.
Proof.
  apply (@country_is_country_city_or_state sample sample_photon_raw
           "Florence" "florence" process_start).
  - reflexivity.
  - reflexivity.
  - by_running.
Defined.

(** X7 at work: Venice comes without a type, Rome without a country. *)
Lemma missing_property_witness :
  ((@is_a_country sample sample_photon_raw "Venice" process_start).1 = Raises KeyError
   ∧ (@is_location_country_city_state sample sample_photon_raw "Venice" process_start).1
     = Raises KeyError)
  ∧ (@country_from_location_name sample sample_photon_raw "Rome" process_start).1
    = Raises KeyError.
Proof.
  split.
  - apply (@missing_property_raises sample sample_photon_raw "Venice" process_start
             venice [("country", JStr "Italy")]); by_running.
  - apply (@missing_property_raises sample sample_photon_raw "Rome" process_start
             rome [("type", JStr "city")]); by_running.
Defined.

(** ** TSPSolver: what a call leaves behind *)

Section solver_effects.

Context `{Libraries}.

Lemma thrifty_pure {A} names (r : result A) : thrifty names (λ w, (r, w)).
Proof.
  intros w. cbn [snd]. rewrite (since_app w w []) by done.
  split_and!; [done|done|constructor|]. intros x Hx. inversion Hx.
Qed.

Lemma thrifty_bind {A B} names (m : M A) (f : A → M B) :
  thrifty names m → (∀ a, thrifty names (f a)) → thrifty names (m ≫= f).
Proof.
  intros Hm Hf w. rewrite bind_eq.
  destruct (Hm w) as (Ht & Hc & Hn & Hx). destruct (m w) as [[a|e] w1]; [|done].
  cbn [snd] in *. destruct (Hf a w1) as (Ht' & Hc' & Hn' & Hx').
  set (w2 := (f a w1).2) in *.
  assert (HT : trace w2 = (since w1 w2 ++ since w w1) ++ trace w).
  { rewrite Ht' at 1. rewrite Ht at 1. by rewrite app_assoc. }
  rewrite (since_app w w2 _ HT). split_and!.
  - done.
  - by etrans.
  - rewrite geocoded_app, fmap_app. apply NoDup_app. split_and!; [done| |done].
    intros k Hk1 Hk2.
    apply list_elem_of_fmap in Hk1 as (x & -> & Hin).
    apply list_elem_of_fmap in Hk2 as (y & Hxy & Hin').
    destruct (Hx' _ Hin) as (_ & Hnone & _). destruct (Hx _ Hin') as (_ & _ & [v Hv]).
    rewrite Hxy, Hv in Hnone. done.
  - intros x. rewrite geocoded_app, elem_of_app. intros [Hin|Hin].
    + destruct (Hx' _ Hin) as (? & Hnone & ?). split_and!; [done| |done].
      by eapply lookup_weaken_None.
    + destruct (Hx _ Hin) as (? & ? & [v Hv]). split_and!; [done|done|].
      exists v. by eapply lookup_weaken.
Qed.

Lemma thrifty_mapM {A B} names (f : A → M B) l :
  (∀ x, x ∈ l → thrifty names (f x)) → thrifty names (mapM f l).
Proof.
  induction l as [|x l IH]; intros Hf.
  - apply (thrifty_pure names (Returns [])).
  - simpl. apply thrifty_bind; [apply Hf; by left|]. intros y.
    apply thrifty_bind; [apply IH; intros; apply Hf; by right|].
    intros k. apply (thrifty_pure names (Returns (y :: k))).
Qed.

Lemma thrifty_query names n : n ∈ names → thrifty names (_query n).
Proof.
  intros Hn w. destruct (query_post n w) as (v & _ & Hv & Hsub & _).
  destruct (query_trace n w) as [Ht Hg]. split_and!; [done|done| |].
  - rewrite Hg. destruct (LOCATION_CACHE w !! lower n); simpl; repeat constructor.
    set_solver.
  - intros x. rewrite Hg. destruct (LOCATION_CACHE w !! lower n) eqn:Hk.
    + intros Hx. inversion Hx.
    + intros Hx. apply list_elem_of_singleton in Hx. subst x. eauto.
Qed.

Lemma thrifty_distance names n1 n2 :
  n1 ∈ names → n2 ∈ names → thrifty names (location_distance n1 n2).
Proof.
  intros H1 H2. unfold location_distance. case_bool_decide.
  - apply (thrifty_pure names (Returns 0)).
  - assert (Hc : ∀ n, n ∈ names → thrifty names (location_coordinates n)).
    { intros n Hn. unfold location_coordinates.
      apply thrifty_bind; [by apply thrifty_query|]. intros [l|].
      - apply (thrifty_pure names (Returns _)).
      - apply (thrifty_pure names (Returns _)). }
    apply thrifty_bind; [by apply Hc|]. intros c1.
    apply thrifty_bind; [by apply Hc|]. intros c2.
    intros w. unfold geodesic_km. cbn [emit fst snd].
    rewrite (since_app w _ [Geodesic _ _]) by done.
    split_and!; [done|done|constructor|]. intros x Hx. inversion Hx.
Qed.

Lemma thrifty_getitem {A} names (l : list A) i : thrifty names (getitem_M l i).
Proof.
  unfold getitem_M. destruct (getitem l i).
  - apply (thrifty_pure names (Returns a)).
  - apply (thrifty_pure names (Raises IndexError)).
Qed.

Lemma getitem_elem_of {A} (l : list A) i x : getitem l i = Some x → x ∈ l.
Proof.
  unfold getitem. repeat case_match; try done; intros Hx;
    by eapply list_elem_of_lookup_2.
Qed.

Lemma thrifty_rows cities : thrifty cities (distance_rows cities).
Proof.
  unfold distance_rows. apply thrifty_mapM. intros i _.
  apply thrifty_mapM. intros j _. case_bool_decide.
  - apply (thrifty_pure cities (Returns 0)).
  - unfold getitem_M.
    destruct (getitem cities (Z.of_nat i)) as [ci|] eqn:Hi;
      [|apply (thrifty_pure cities (Raises IndexError))].
    destruct (getitem cities (Z.of_nat j)) as [cj|] eqn:Hj;
      [|apply (thrifty_pure cities (Raises IndexError))].
    apply (thrifty_distance cities ci cj); by eapply getitem_elem_of.
Qed.

(** The cache and the provider calls of a call on more than one city are
    those of building the rows. *)
Lemma solve_lookups self cities open_problem w :
  (1 < length cities)%nat →
  LOCATION_CACHE (solve self cities open_problem w).2
    = LOCATION_CACHE (distance_rows cities w).2
  ∧ geocoded (since w (solve self cities open_problem w).2)
    = geocoded (since w (distance_rows cities w).2).
Proof.
  intros Hlen. destruct (rows_trace cities w) as (Ht & _ & _).
  destruct (distance_rows cities w).1 as [rows|e] eqn:Hrows.
  - rewrite (solve_built _ _ _ _ _ Hlen Hrows). cbv zeta. cbn [snd LOCATION_CACHE].
    split; [done|].
    erewrite (since_app w _ (Solve _ _ :: since w (distance_rows cities w).2)).
    + done.
    + simpl. by rewrite Ht at 1.
  - by rewrite (solve_not_built _ _ _ _ _ Hlen Hrows).
Qed.

(** X8: [solve] never changes an array that existed before the call: a
    matrix read from [distance_matrix] earlier still holds the same numbers
    afterwards, whatever the call does. *)
Theorem solve_keeps_earlier_arrays self cities open_problem w :
  ∃ new,
    arrays (solve self cities open_problem w).2 = arrays w ++ new
    ∧ ∀ r, (r < length (arrays w))%nat →
        deref (solve self cities open_problem w).2 r = deref w r.
Proof.
  assert (Hnew : ∃ new, arrays (solve self cities open_problem w).2 = arrays w ++ new).
  { destruct (decide (1 < length cities)%nat) as [Hlen|Hlen].
    - destruct (rows_trace cities w) as (_ & _ & Ha).
      destruct (distance_rows cities w).1 as [rows|e] eqn:Hrows.
      + rewrite (solve_built _ _ _ _ _ Hlen Hrows). cbv zeta. cbn [snd arrays].
        rewrite Ha. eauto.
      + rewrite (solve_not_built _ _ _ _ _ Hlen Hrows). cbn [snd].
        exists []. by rewrite Ha, app_nil_r.
    - rewrite solve_degenerate by lia. exists []. by rewrite app_nil_r. }
  destruct Hnew as [new Hnew]. exists new. split; [done|].
  intros r Hr. unfold deref. by rewrite Hnew, lookup_app_l.
Qed.

(** X9: during one call of [solve] the provider is asked at most once for
    each lower-cased city name, only for cities of the list that the cache
    did not hold, so at most as many times as there are cities; no cache
    entry is removed or changed. *)
Theorem solve_asks_provider_once_per_city self cities open_problem w :
  LOCATION_CACHE w ⊆ LOCATION_CACHE (solve self cities open_problem w).2
  ∧ NoDup (lower <$> geocoded (since w (solve self cities open_problem w).2))
  ∧ (∀ x, x ∈ geocoded (since w (solve self cities open_problem w).2) →
       x ∈ cities ∧ LOCATION_CACHE w !! lower x = None)
  ∧ (length (geocoded (since w (solve self cities open_problem w).2))
     ≤ length cities)%nat.
Proof.
  assert (Hmain :
    LOCATION_CACHE w ⊆ LOCATION_CACHE (solve self cities open_problem w).2
    ∧ NoDup (lower <$> geocoded (since w (solve self cities open_problem w).2))
    ∧ (∀ x, x ∈ geocoded (since w (solve self cities open_problem w).2) →
         x ∈ cities ∧ LOCATION_CACHE w !! lower x = None)).
  { destruct (decide (1 < length cities)%nat) as [Hlen|Hlen].
    - destruct (solve_lookups self cities open_problem w Hlen) as [-> ->].
      destruct (thrifty_rows cities w) as (_ & Hsub & Hnd & Hx).
      split_and!; [done|done|]. intros x Hin.
      by destruct (Hx x Hin) as (? & ? & _).
    - rewrite solve_degenerate by lia. cbn [snd].
      rewrite (since_app w w []) by done.
      split_and!; [done|constructor|]. intros x Hin. inversion Hin. }
  destruct Hmain as (Hsub & Hnd & Hx). split_and!; [done..|].
  apply submseteq_length, NoDup_submseteq.
  - by eapply NoDup_fmap_1.
  - intros x Hin. by apply Hx.
Qed.

Lemma mapM_still {A B} (f : A → M B) (g : A → B) l w :
  (∀ x, x ∈ l → f x w = (Returns (g x), w)) →
  mapM f l w = (Returns (g <$> l), w).
Proof.
  induction l as [|x l IH]; intros Hf; [done|].
  rewrite mapM_cons, Hf by (by left). rewrite IH; [done|].
  intros y Hy. apply Hf. by right.
Qed.

(** A list of spellings of one name gives rows of zeros and touches
    nothing. *)
Lemma rows_of_one_place cities k w :
  (∀ c, c ∈ cities → lower c = k) →
  distance_rows cities w
  = (Returns (replicate (length cities) (replicate (length cities) 0)), w).
Proof.
  intros Hsame. unfold distance_rows.
  rewrite (mapM_still _ (λ _, replicate (length cities) 0)).
  - f_equal. f_equal. rewrite (const_fmap _ _ (replicate (length cities) 0)) by done.
    by rewrite length_seq.
  - intros i Hi. apply elem_of_seq in Hi.
    rewrite (mapM_still _ (λ _, 0)).
    + f_equal. f_equal. rewrite (const_fmap _ _ 0) by done. by rewrite length_seq.
    + intros j Hj. apply elem_of_seq in Hj. case_bool_decide; [done|].
      unfold getitem_M. rewrite !getitem_of_nat.
      destruct (lookup_lt_is_Some_2 cities i) as [ci Hci]; [lia|].
      destruct (lookup_lt_is_Some_2 cities j) as [cj Hcj]; [lia|].
      rewrite Hci, Hcj. change (location_distance ci cj w = (Returns 0, w)).
      unfold location_distance. rewrite bool_decide_eq_true_2; [done|].
      rewrite (Hsame ci), (Hsame cj); [done|by eapply list_elem_of_lookup_2..].
Qed.

(** X10: when every city of the list is a spelling of one name, as in
    Paris, Paris, [solve] stores a matrix of zeros and its only effect
    besides is the solver call: nothing is looked up, no provider is asked
    and no geodesic distance is computed. *)
Theorem solve_of_one_place self cities open_problem k w :
  (1 < length cities)%nat →
  (∀ c, c ∈ cities → lower c = k) →
  distance_matrix (solve self cities open_problem w).1.2
                  (solve self cities open_problem w).2
    = replicate (length cities) (replicate (length cities) 0)
  ∧ since w (solve self cities open_problem w).2
    = [Solve (choose_solver cities)
         (replicate (length cities) (replicate (length cities) 0))]
  ∧ LOCATION_CACHE (solve self cities open_problem w).2 = LOCATION_CACHE w.
Proof.
  intros Hlen Hsame.
  pose proof (rows_of_one_place cities k w Hsame) as Hrows.
  assert (Hr : (distance_rows cities w).1
               = Returns (replicate (length cities) (replicate (length cities) 0)))
    by by rewrite Hrows.
  split_and!.
  - by apply stored_matrix.
  - rewrite (solve_built _ _ _ _ _ Hlen Hr). cbv zeta. rewrite Hrows. cbn [snd].
    assert (Hwork : (if open_problem
                     then set_column 0 0 (replicate (length cities) (replicate (length cities) 0))
                     else replicate (length cities) (replicate (length cities) 0))
                    = replicate (length cities) (replicate (length cities) 0)).
    { destruct open_problem; [|done]. unfold set_column. rewrite fmap_replicate.
      f_equal. destruct (length cities); done. }
    rewrite Hwork. by apply since_app.
  - destruct (solve_lookups self cities open_problem w Hlen) as [-> _].
    by rewrite Hrows.
Qed.

(** X11: when building the matrix raises, [solve] raises the same fault
    and the object is as before: [distance_matrix] still holds the matrix of
    the call before, although the cache may have grown. *)
Theorem failed_solve_keeps_matrix self cities open_problem w e :
  (1 < length cities)%nat →
  (distance_rows cities w).1 = Raises e →
  (solve self cities open_problem w).1 = (Raises e, self)
  ∧ distance_matrix (solve self cities open_problem w).1.2
                    (solve self cities open_problem w).2
    = distance_matrix self w
  ∧ arrays (solve self cities open_problem w).2 = arrays w.
Proof.
  intros Hlen Hrows. rewrite (solve_not_built _ _ _ _ _ Hlen Hrows). cbn [fst snd].
  destruct (rows_trace cities w) as (_ & _ & Ha).
  split_and!; [done| |done]. unfold distance_matrix, deref. by rewrite Ha.
Qed.

Lemma getitem_None {A} (l : list A) i :
  getitem l i = None ↔ (i < - Z.of_nat (length l) ∨ Z.of_nat (length l) ≤ i)%Z.
Proof.
  unfold getitem. destruct (0 <=? i)%Z eqn:H0.
  - apply Z.leb_le in H0. rewrite lookup_ge_None. lia.
  - apply Z.leb_gt in H0. destruct (- Z.of_nat (length l) <=? i)%Z eqn:H1.
    + apply Z.leb_le in H1. rewrite lookup_ge_None. lia.
    + apply Z.leb_gt in H1. split; [lia|done].
Qed.

(** X12: once the matrix is built, [solve] raises [IndexError] exactly when
    the solver's answer holds an index below -N or from N on; the new matrix
    is stored by then, so [distance_matrix] has changed although the call
    failed. *)
Theorem solve_index_error self cities open_problem w rows :
  (1 < length cities)%nat →
  (distance_rows cities w).1 = Returns rows →
  ((solve self cities open_problem w).1.1 = Raises IndexError
   ↔ Exists (λ i, (i < - Z.of_nat (length cities) ∨ Z.of_nat (length cities) ≤ i)%Z)
       (run_solver (choose_solver cities) (trace (distance_rows cities w).2)
          (if open_problem then set_column 0 0 rows else rows)).1)
  ∧ distance_matrix (solve self cities open_problem w).1.2
                    (solve self cities open_problem w).2 = rows.
Proof.
  intros Hlen Hrows. split; [|by apply stored_matrix].
  rewrite (solve_built _ _ _ _ _ Hlen Hrows). cbv zeta. cbn [fst].
  set (sol := run_solver _ _ _).
  assert (Hout : Exists (λ i, (i < - Z.of_nat (length cities)
                               ∨ Z.of_nat (length cities) ≤ i)%Z) sol.1
                 ↔ mapM (getitem cities) sol.1 = None).
  { rewrite mapM_None, !Exists_exists.
    split; intros (i & Hi & Hr); exists i; (split; [done|]); by apply getitem_None. }
  rewrite Hout. by destruct (mapM (getitem cities) sol.1).
Qed.

(** X13: without [open_problem] the solver is given a copy equal to the
    stored matrix, and the distance returned is the one it reports for that
    unmodified matrix. *)
Theorem closed_problem_uses_stored_matrix self cities w rows route d :
  (1 < length cities)%nat →
  (distance_rows cities w).1 = Returns rows →
  (solve self cities false w).1.1 = Returns (route, d) →
  solver_calls (since w (solve self cities false w).2)
    = [(choose_solver cities,
        distance_matrix (solve self cities false w).1.2 (solve self cities false w).2)]
  ∧ d = (run_solver (choose_solver cities) (trace (distance_rows cities w).2)
           (distance_matrix (solve self cities false w).1.2
                            (solve self cities false w).2)).2.
Proof.
  intros Hlen Hrows Hres.
  rewrite (stored_matrix _ _ false _ _ Hlen Hrows).
  split; [by rewrite (solve_solver_calls _ _ _ _ _ Hlen Hrows)|].
  rewrite (solve_built _ _ _ _ _ Hlen Hrows) in Hres. cbv zeta in Hres.
  cbn [fst] in Hres. destruct (mapM (getitem cities) _); [|done].
  by injection Hres as _ <-.
Qed.

End solver_effects.

(** X10 at work: Paris twice. *)
Lemma solve_of_one_place_witness :
  distance_matrix (sample_solve new_solver ["Paris"; "PARIS"] false new_world).1.2
                  (sample_solve new_solver ["Paris"; "PARIS"] false new_world).2
    = replicate (length ["Paris"; "PARIS"]) (replicate (length ["Paris"; "PARIS"]) 0)
  ∧ since new_world (sample_solve new_solver ["Paris"; "PARIS"] false new_world).2
    = [Solve (@choose_solver ["Paris"; "PARIS"])
         (replicate (length ["Paris"; "PARIS"]) (replicate (length ["Paris"; "PARIS"]) 0))]
  ∧ LOCATION_CACHE (sample_solve new_solver ["Paris"; "PARIS"] false new_world).2
    = LOCATION_CACHE new_world.
Proof.
  apply (@solve_of_one_place sample new_solver ["Paris"; "PARIS"] false "paris" new_world).
  - simpl. lia.
  - intros c Hc. repeat (apply elem_of_cons in Hc as [->|Hc]; [reflexivity|]).
    inversion Hc.
Defined.

(** X11 at work: Rome and a place the provider does not know. *)
Lemma failed_solve_witness :
  (sample_solve new_solver ["Rome"; "Atlantis"] false new_world).1
    = (Raises TypeError, new_solver)
  ∧ distance_matrix (sample_solve new_solver ["Rome"; "Atlantis"] false new_world).1.2
                    (sample_solve new_solver ["Rome"; "Atlantis"] false new_world).2
    = distance_matrix new_solver new_world
  ∧ arrays (sample_solve new_solver ["Rome"; "Atlantis"] false new_world).2
    = arrays new_world.
Proof.
  apply (@failed_solve_keeps_matrix sample new_solver ["Rome"; "Atlantis"] false
           new_world TypeError).
  - simpl. lia.
  - by_running.
Defined.

(** X12 at work: the three cities, whose solver answers within range. *)
Lemma solve_index_error_witness :
  ((sample_solve new_solver three_cities true new_world).1.1 = Raises IndexError
   ↔ Exists (λ i, (i < - Z.of_nat (length three_cities)
                   ∨ Z.of_nat (length three_cities) ≤ i)%Z)
       (@run_solver sample (choose_solver three_cities)
          (trace (sample_rows three_cities new_world).2)
          (set_column 0 0 three_cities_matrix)).1)
  ∧ distance_matrix (sample_solve new_solver three_cities true new_world).1.2
                    (sample_solve new_solver three_cities true new_world).2
    = three_cities_matrix.
Proof.
  apply (@solve_index_error sample new_solver three_cities true new_world
           three_cities_matrix).
  - by_counting.
  - by_running.
Defined.

(** X13 at work: the closed tour of the three cities. *)
Lemma closed_problem_witness :
  solver_calls (since new_world (sample_solve new_solver three_cities false new_world).2)
    = [(choose_solver three_cities,
        distance_matrix (sample_solve new_solver three_cities false new_world).1.2
                        (sample_solve new_solver three_cities false new_world).2)]
  ∧ 829.75
    = (@run_solver sample (choose_solver three_cities)
         (trace (sample_rows three_cities new_world).2)
         (distance_matrix (sample_solve new_solver three_cities false new_world).1.2
                          (sample_solve new_solver three_cities false new_world).2)).2.
Proof.
  apply (@closed_problem_uses_stored_matrix sample new_solver three_cities new_world
           three_cities_matrix three_cities 829.75).
  - by_counting.
  - by_running.
  - by_running.
Defined.

(** ** weighted_average *)

Lemma py_sum_zeros (l : list float) : Forall (λ x, x = 0) l → py_sum l = 0.
Proof.
  unfold py_sum. induction 1 as [|x l -> _ IH]; [done|]. simpl. exact IH.
Qed.

Lemma products_in_range (values weights : list float) :
  length values = length weights →
  is_Some (mapM (λ i, v ← getitem values (Z.of_nat i);
                      w ← getitem weights (Z.of_nat i);
                      Some (v * w))
                (seq 0 (length values))).
Proof.
  intros Hlen. apply mapM_is_Some, Forall_forall. intros i Hi.
  apply elem_of_seq in Hi. simpl. rewrite !getitem_of_nat.
  destruct (lookup_lt_is_Some_2 values i) as [v ->]; [lia|].
  destruct (lookup_lt_is_Some_2 weights i) as [w ->]; [lia|]. by eexists.
Qed.

(** X14: [weighted_average] raises [AssertionError] exactly when the two
    lists differ in length, never [IndexError], and [ZeroDivisionError] when
    the lengths agree and every weight is 0.0, the empty lists included. *)
Theorem weighted_average_faults (values weights : list float) :
  (weighted_average values weights = Exception AssertionError
   ↔ length values ≠ length weights)
  ∧ weighted_average values weights ≠ Exception (LookupError IndexError)
  ∧ (length values = length weights → Forall (λ w, w = 0) weights →
     weighted_average values weights = Exception ZeroDivisionError).
Proof.
  unfold weighted_average. case_bool_decide as Hlen.
  - destruct (products_in_range values weights Hlen) as [products ->].
    split_and!.
    + split; [|done]. unfold true_div. by case_match.
    + unfold true_div. by case_match.
    + intros _ Hzero. by rewrite (py_sum_zeros _ Hzero).
  - split_and!; [done|done|done].
Qed.

(** X14 at work: no values at all, and two weights of zero. *)
Lemma weighted_average_witness :
  weighted_average [] [] = Exception ZeroDivisionError
  ∧ weighted_average [1.5; 2.5] [0; 0] = Exception ZeroDivisionError.
Proof.
  split.
  - apply (weighted_average_faults [] []); [reflexivity|constructor].
  - apply (weighted_average_faults [1.5; 2.5] [0; 0]); [reflexivity|].
    repeat constructor.
Defined.

(** ** The OpenAI engine *)

Section openai_engine_properties.

Context `{OpenAI}.

Lemma openai_call_sent self p sent :
  (_openai_call self p sent).2 = chat_request self p :: sent
  ∧ settings (_openai_call self p sent).1.2 = settings self.
Proof.
  unfold _openai_call.
  destruct (ChatCompletion_create sent (chat_request self p)) as [out|e]; [|done].
  destruct (item out "choices" ≫= _) as [reason|e]; [|done].
  destruct (item out "usage" ≫= _) as [total|e]; done.
Qed.

Lemma get_travel_plan_json_sent self p sent :
  (get_travel_plan_json self p sent).2 = chat_request self p :: sent
  ∧ settings (get_travel_plan_json self p sent).1.2 = settings self.
Proof.
  unfold get_travel_plan_json. destruct (openai_call_sent self p sent) as [Hs He].
  destruct (_openai_call self p sent) as [[[response|e] self1] sent1]; [|done].
  by destruct (parse_response response).
Qed.

Lemma plans_sent self prompts sent :
  settings (plans self prompts sent).1 = settings self
  ∧ ∃ new, (plans self prompts sent).2 = new ++ sent
         ∧ length new = length prompts
         ∧ Forall (λ r, ∃ p, r = chat_request self p) new.
Proof.
  revert self sent. induction prompts as [|p prompts IH]; intros self sent.
  - split; [done|]. by exists [].
  - simpl. destruct (get_travel_plan_json_sent self p sent) as [Hs He].
    destruct (get_travel_plan_json self p sent) as [[res self1] sent1].
    cbn [fst snd] in Hs, He. subst sent1.
    destruct (IH self1 (chat_request self p :: sent)) as (Hset & new & -> & Hlen & Hall).
    split; [congruence|]. exists (new ++ [chat_request self p]). split_and!.
    + by rewrite <- (assoc_L (++)).
    + rewrite length_app. simpl. lia.
    + apply Forall_app. split; [|repeat constructor; by eexists].
      eapply Forall_impl; [exact Hall|]. intros r [q ->]. exists q.
      unfold chat_request. unfold settings in He.
      injection He as H1 H2 H3 H4 H5 H6 H7. congruence.
Qed.

(** X15: an engine that [ChatGPTravelEngine] made sends exactly one request
    for each plan it is asked for, faults included, and every one of them
    names gpt-3.5-turbo, asks for the smaller of the requested tokens and
    4096, and carries the settings the engine was made with, whose penalties
    lie between 0.0 and 2.0. *)
Theorem engine_requests_are_capped t tp fp pp k m self prompts sent :
  ChatGPTravelEngine_init t tp fp pp k m = Value self →
  ∃ new,
    (plans self prompts sent).2 = new ++ sent
    ∧ length new = length prompts
    ∧ Forall (λ r,
        model r = "gpt-3.5-turbo"
        ∧ max_tokens r = Z.min m 4096
        ∧ (max_tokens r ≤ 4096)%Z
        ∧ n r = k
        ∧ temperature r = t
        ∧ top_p r = tp
        ∧ presence_penalty r = pp
        ∧ frequency_penalty r = fp
        ∧ penalty_ok pp = true
        ∧ penalty_ok fp = true) new.
Proof.
  unfold ChatGPTravelEngine_init. intros Hinit.
  destruct (penalty_ok pp) eqn:Hpp; [|done].
  destruct (penalty_ok fp) eqn:Hfp; [|done].
  injection Hinit as Hself.
  destruct (plans_sent self prompts sent) as (_ & new & Hnew & Hlen & Hall).
  exists new. split_and!; [done..|].
  eapply Forall_impl; [exact Hall|]. intros r [p ->]. subst self. simpl.
  split_and!; try done. lia.
Qed.

(** X16: a call that the client fails leaves [finish_reason] and
    [total_tokens] as they were, which is [None] for a new engine; a call
    that the client answers sets both from the answer, also when the plan in
    it cannot be parsed and [get_travel_plan_json] raises. *)
Theorem engine_bookkeeping self p sent :
  match ChatCompletion_create sent (chat_request self p) with
  | Exception e =>
      get_travel_plan_json self p sent = (Exception e, self, chat_request self p :: sent)
  | Value out =>
      ∀ reason total,
        finish_reason_in out = Returns reason →
        total_tokens_in out = Returns total →
        _finish_reason (get_travel_plan_json self p sent).1.2 = reason
        ∧ _total_tokens (get_travel_plan_json self p sent).1.2 = total
        ∧ (get_travel_plan_json self p sent).1.1
          = match parse_response out with
            | Value json_object =>
                Value {| plan_departure_place := departure_place p;
                         plan_destination_place := destination_place p;
                         n_days := n_travel_days p;
                         travel_plan_json := json_object;
                         json_keys_depth_map := json_keys p |}
            | Exception e => Exception e
            end
  end
  ∧ ∀ t tp fp pp k m new_engine,
      ChatGPTravelEngine_init t tp fp pp k m = Value new_engine →
      _finish_reason new_engine = JNone ∧ _total_tokens new_engine = JNone.
Proof.
  split.
  - unfold get_travel_plan_json, _openai_call.
    destruct (ChatCompletion_create sent (chat_request self p)) as [out|e]; [|done].
    intros reason total Hr Ht. unfold finish_reason_in in Hr. unfold total_tokens_in in Ht.
    rewrite Hr, Ht. by destruct (parse_response out).
  - intros t tp fp pp k m e. unfold ChatGPTravelEngine_init.
    destruct (penalty_ok pp); [|done]. destruct (penalty_ok fp); [|done].
    by intros [= <-].
Qed.

Lemma replace_quotes_none s :
  single_quote ∉ list_ascii_of_string s → replace_quotes s = s.
Proof.
  induction s as [|c s IH]; [done|]. simpl. intros Hc.
  apply not_elem_of_cons in Hc as [Hc Hs]. rewrite (IH Hs).
  destruct (Ascii.eqb_spec c single_quote) as [->|_]; done.
Qed.

(** X17: given an answer whose first message is the text [s],
    [get_travel_plan_json] raises [IndexError] when no JSON text is found in
    [s]; otherwise only the first text found counts: if it parses, the plan
    holds it unchanged; if it does not parse and has no single quote, the call
    raises [JSONDecodeError]; if it parses once its single quotes are made
    double, the plan holds that.  The places and the days of the plan are the
    prompt's. *)
Theorem plan_comes_from_first_json self p sent out s :
  (_openai_call self p sent).1.1 = Value out →
  content_in out = Returns (JStr s) →
  (_regex s = [] →
     (get_travel_plan_json self p sent).1.1 = Exception (LookupError IndexError))
  ∧ ∀ first rest, _regex s = first :: rest →
      (∀ j, json_loads first = Some j ∨
            (json_loads first = None ∧ json_loads (replace_quotes first) = Some j) →
         (get_travel_plan_json self p sent).1.1
         = Value {| plan_departure_place := departure_place p;
                    plan_destination_place := destination_place p;
                    n_days := n_travel_days p;
                    travel_plan_json := j;
                    json_keys_depth_map := json_keys p |})
      ∧ (json_loads first = None →
         single_quote ∉ list_ascii_of_string first
         ∨ json_loads (replace_quotes first) = None →
         (get_travel_plan_json self p sent).1.1 = Exception JSONDecodeError).
Proof.
  intros Hcall Hcontent. unfold get_travel_plan_json.
  destruct (_openai_call self p sent) as [[r self1] sent1]. simpl in Hcall. subst r.
  cbn [fst]. unfold parse_response. unfold content_in in Hcontent. rewrite Hcontent.
  split.
  - by intros ->.
  - intros first rest ->. simpl. split.
    + intros j [->|[-> ->]]; done.
    + intros Hnone Hfall. rewrite Hnone.
      destruct Hfall as [Hq|Hq].
      * by rewrite (replace_quotes_none _ Hq), Hnone.
      * by rewrite Hq.
Qed.

End openai_engine_properties.

(** X15 at work: a request for 5000 tokens, three plans. *)
Lemma engine_requests_witness :
  ∃ new,
    (@plans sample_openai
       {| _model := "gpt-3.5-turbo"; _temperature := 1; _max_tokens := 4096;
          _top_p := 1; _frequency_penalty := 0; _presence_penalty := 0.5;
          _finish_reason := JNone; _total_tokens := JNone; _n := 1 |}
       [sample_prompt; sample_prompt; sample_prompt] []).2 = new ++ []
    ∧ length new = length [sample_prompt; sample_prompt; sample_prompt]
    ∧ Forall (λ r,
        model r = "gpt-3.5-turbo"
        ∧ max_tokens r = Z.min 5000 4096
        ∧ (max_tokens r ≤ 4096)%Z
        ∧ n r = 1%Z
        ∧ temperature r = 1
        ∧ top_p r = 1
        ∧ presence_penalty r = 0.5
        ∧ frequency_penalty r = 0
        ∧ penalty_ok 0.5 = true
        ∧ penalty_ok 0 = true) new.
Proof.
  apply (@engine_requests_are_capped sample_openai 1 1 0 0.5 1%Z 5000%Z).
  reflexivity.
Defined.

(** X17 at work: a plan in single quotes. *)
Lemma plan_from_single_quotes_witness :
  (@get_travel_plan_json sample_openai
     {| _model := "gpt-3.5-turbo"; _temperature := 1; _max_tokens := 280;
        _top_p := 1; _frequency_penalty := 0; _presence_penalty := 0;
        _finish_reason := JNone; _total_tokens := JNone; _n := 1 |}
     sample_prompt []).1.1
  = Value {| plan_departure_place := "Milan";
             plan_destination_place := "Rome";
             n_days := 3;
             travel_plan_json := JDict [("Day 1", JDict [])];
             json_keys_depth_map := JDict [("day", JInt 0); ("city", JInt 1)] |}.
Proof.
  eapply (@plan_comes_from_first_json sample_openai _ sample_prompt [] sample_response
            "{'Day 1': {}}").
  - reflexivity.
  - reflexivity.
  - reflexivity.
  - right. split; reflexivity.
Defined.

(** X16 at work: an answer that stops after 42 tokens. *)
Lemma engine_bookkeeping_witness :
  let self := {| _model := "gpt-3.5-turbo"; _temperature := 1; _max_tokens := 280;
                 _top_p := 1; _frequency_penalty := 0; _presence_penalty := 0;
                 _finish_reason := JNone; _total_tokens := JNone; _n := 1 |} in
  _finish_reason (@get_travel_plan_json sample_openai self sample_prompt []).1.2
    = JStr "stop"
  ∧ _total_tokens (@get_travel_plan_json sample_openai self sample_prompt []).1.2
    = JInt 42.
Proof.
  cbv zeta.
  destruct (@engine_bookkeeping sample_openai
              {| _model := "gpt-3.5-turbo"; _temperature := 1; _max_tokens := 280;
                 _top_p := 1; _frequency_penalty := 0; _presence_penalty := 0;
                 _finish_reason := JNone; _total_tokens := JNone; _n := 1 |}
              sample_prompt []) as [Hcall _].
  simpl in Hcall.
  destruct (Hcall (JStr "stop") (JInt 42) eq_refl eq_refl) as (Hr & Ht & _).
  split; [exact Hr|exact Ht].
Defined.

(** ** TSPSolver: the matrix and the cache *)

Section solver_matrix.

Context `{Libraries}.

(** X18: two cities of the list that are spellings of one name are at
    distance 0.0 in the matrix, wherever they stand in the list and whatever
    the geodesic function says. *)
Theorem same_place_entries_are_zero cities w rows i j ci cj :
  (distance_rows cities w).1 = Returns rows →
  cities !! i = Some ci →
  cities !! j = Some cj →
  lower ci = lower cj →
  at_ rows i j = Some 0.
Proof.
  intros Hrows Hi Hj Hsame. destruct (agrees_rows cities w) as [_ Hr].
  rewrite (Hr _ (reflexivity _)) in Hrows.
  destruct (cached_rows_entries _ _ _ Hrows) as [Hlen Hrow].
  destruct (lookup_lt_is_Some_2 rows i) as [row Hri].
  { rewrite Hlen. by eapply lookup_lt_Some. }
  destruct (Hrow _ _ Hri) as [Hl Hcell].
  destruct (lookup_lt_is_Some_2 row j) as [v Hv].
  { rewrite Hl. by eapply lookup_lt_Some. }
  unfold at_. rewrite Hri. simpl. rewrite Hv.
  destruct (Hcell _ _ Hv) as [[_ ->]|(_ & ci' & cj' & Hi' & Hj' & Hd)]; [done|].
  assert (ci' = ci) as -> by congruence. assert (cj' = cj) as -> by congruence.
  unfold cached_distance in Hd. rewrite bool_decide_eq_true_2 in Hd by done.
  by injection Hd as <-.
Qed.

Lemma replays_pure {A} (r : result A) : replays (λ w, (r, w)).
Proof.
  intros w. split; [done|]. intros v _. cbn [fst snd].
  by rewrite (since_app v v []).
Qed.

Lemma replays_bind {A B} (m : M A) (f : A → M B) :
  replays m → (∀ a, replays (f a)) → replays (m ≫= f).
Proof.
  intros Hm Hf w. rewrite bind_eq. destruct (Hm w) as [Hsub Hagain].
  destruct (m w) as [[a|e] w1] eqn:Hmw; cbn [fst snd] in *.
  - destruct (Hf a w1) as [Hsub' Hagain']. split; [by etrans|].
    intros v Hv. rewrite bind_eq.
    destruct (Hagain v) as (Hr & Hc & Ht & Hg); [by etrans|].
    destruct (m v) as [r v1]. cbn [fst snd] in *. subst r.
    destruct (Hagain' v1) as (Hr' & Hc' & Ht' & Hg'); [by rewrite Hc|].
    split_and!; [done|congruence| |].
    + assert (HT : trace (f a v1).2 = (since v1 (f a v1).2 ++ since v v1) ++ trace v).
      { rewrite Ht' at 1. rewrite Ht at 1. by rewrite app_assoc. }
      by rewrite (since_app v _ _ HT).
    + assert (HT : trace (f a v1).2 = (since v1 (f a v1).2 ++ since v v1) ++ trace v).
      { rewrite Ht' at 1. rewrite Ht at 1. by rewrite app_assoc. }
      by rewrite (since_app v _ _ HT), geocoded_app, Hg, Hg'.
  - split; [done|]. intros v Hv. rewrite bind_eq.
    destruct (Hagain v Hv) as (Hr & Hc & Ht & Hg).
    destruct (m v) as [r v1]. cbn [fst snd] in *. by subst r.
Qed.

Lemma replays_mapM {A B} (f : A → M B) l :
  (∀ x, replays (f x)) → replays (mapM f l).
Proof.
  intros Hf. induction l as [|x l IH].
  - apply (replays_pure (Returns [])).
  - simpl. apply replays_bind; [done|]. intros y.
    apply replays_bind; [done|]. intros k. apply (replays_pure (Returns (y :: k))).
Qed.

Lemma replays_query n : replays (_query n).
Proof.
  intros w. destruct (query_post n w) as (x & Hr & Hx & Hsub & _).
  split; [done|]. intros v Hv.
  assert (Hk : LOCATION_CACHE v !! lower n = Some x) by by eapply lookup_weaken.
  destruct (query_trace n v) as [Ht Hg]. rewrite Hk in Hg.
  split_and!; [|by rewrite (query_hit _ _ _ Hk)|done|done].
  rewrite Hr. by rewrite (query_hit _ _ _ Hk).
Qed.

Lemma replays_distance n1 n2 : replays (location_distance n1 n2).
Proof.
  unfold location_distance. case_bool_decide.
  - apply (replays_pure (Returns 0)).
  - assert (Hc : ∀ n, replays (location_coordinates n)).
    { intros n. unfold location_coordinates.
      apply replays_bind; [apply replays_query|]. intros [l|].
      - apply (replays_pure (Returns _)).
      - apply (replays_pure (Returns _)). }
    apply replays_bind; [done|]. intros c1.
    apply replays_bind; [done|]. intros c2.
    intros w. unfold geodesic_km. cbn [emit fst snd LOCATION_CACHE trace].
    split; [done|]. intros v _.
    by rewrite (since_app v _ [Geodesic (lat c1, lon c1) (lat c2, lon c2)]).
Qed.

Lemma replays_rows cities : replays (distance_rows cities).
Proof.
  unfold distance_rows. apply replays_mapM. intros i.
  apply replays_mapM. intros j. case_bool_decide.
  - apply (replays_pure (Returns 0)).
  - unfold getitem_M.
    destruct (getitem cities (Z.of_nat i)) as [ci|];
      [|apply (replays_pure (Raises IndexError))].
    destruct (getitem cities (Z.of_nat j)) as [cj|];
      [|apply (replays_pure (Raises IndexError))].
    apply (replays_distance ci cj).
Qed.

(** X19: a second call of [solve] on the same cities, whatever happened in
    between as long as nothing was taken out of the cache, asks the provider
    nothing and, when the first call built a matrix, stores an equal one. *)
Theorem solve_again_asks_nothing self self' cities open_problem open_problem' w v :
  (1 < length cities)%nat →
  LOCATION_CACHE (solve self cities open_problem w).2 ⊆ LOCATION_CACHE v →
  geocoded (since v (solve self' cities open_problem' v).2) = []
  ∧ LOCATION_CACHE (solve self' cities open_problem' v).2 = LOCATION_CACHE v
  ∧ ∀ rows, (distance_rows cities w).1 = Returns rows →
      distance_matrix (solve self' cities open_problem' v).1.2
                      (solve self' cities open_problem' v).2 = rows.
Proof.
  intros Hlen Hsub.
  destruct (solve_lookups self cities open_problem w Hlen) as [Hc _].
  rewrite Hc in Hsub.
  destruct (replays_rows cities w) as [_ Hagain].
  destruct (Hagain v Hsub) as (Hr & Hcache & _ & Hquiet).
  destruct (solve_lookups self' cities open_problem' v Hlen) as [-> ->].
  split_and!; [done|done|].
  intros rows Hrows. apply stored_matrix; [done|]. by rewrite Hr.
Qed.

End solver_matrix.

(** X18 at work: Rome and ROME among the ten cities. *)
Lemma same_place_entries_witness : at_ ten_cities_matrix 0 6 = Some 0.
Proof.
  apply (@same_place_entries_are_zero sample ten_cities new_world ten_cities_matrix
           0 6 "Rome" "ROME").
  - by_running.
  - reflexivity.
  - reflexivity.
  - reflexivity.
Defined.

(** X19 at work: the three cities, closed and then open. *)
Lemma solve_again_witness :
  let first := sample_solve new_solver three_cities false new_world in
  geocoded (since first.2 (sample_solve first.1.2 three_cities true first.2).2) = []
  ∧ LOCATION_CACHE (sample_solve first.1.2 three_cities true first.2).2
    = LOCATION_CACHE first.2
  ∧ ∀ rows, (sample_rows three_cities new_world).1 = Returns rows →
      distance_matrix (sample_solve first.1.2 three_cities true first.2).1.2
                      (sample_solve first.1.2 three_cities true first.2).2 = rows.
Proof.
  apply (@solve_again_asks_nothing sample new_solver _ three_cities false true new_world).
  - by_counting.
  - reflexivity.
Defined.
